(** * flatten: flat, one-dimensional maps from arbitrarily nested ones

    A shallow embedding of [flatten.go] (package [flatten]) and the
    properties of its three entry points [Flatten], [FlattenAll] and
    [FlattenString]. *)

From Stdlib Require Import ZArith DecimalString.
From stdpp Require Import gmap strings list fin_maps sorting.

Local Open Scope string_scope.
Local Open Scope list_scope.

(** ** Data model *)

(** A Go [interface{}] value, by dynamic type.  Only [map[string]interface{}]
    and [[]interface{}] are traversed by the package; every other dynamic
    type is a leaf.

    - [VMap kvs] is a [map[string]interface{}]; [kvs] lists its entries in
      the order in which [range] visits them in the run under consideration
      (Go leaves that order unspecified).  A nil map ranges over no entry
      and is [VMap []].
    - [VArr xs] is a [[]interface{}].
    - floating-point numbers are carried as their IEEE-754 bit pattern.
    - [VOther ty shown] is a value of any other dynamic type [ty] (a struct,
      a pointer, a typed slice such as [[]string], ...) together with the
      text that [fmt]'s [%v] prints for it. *)
#[warnings="-register-all"]
Inductive value : Type :=
| VNil
| VBool (b : bool)
| VString (s : string)
| VInt (n : Z)
| VInt32 (n : Z)
| VInt64 (n : Z)
| VFloat32 (bits : Z)
| VFloat64 (bits : Z)
| VNumber (s : string)
| VOther (ty shown : string)
| VArr (xs : list value)
| VMap (kvs : list (string * value)).

(** [type SeparatorStyle int], with [iota] numbering from the blank
    identifier: 0 is unnamed. *)
Definition SeparatorStyle : Type := Z.
Definition DotStyle : SeparatorStyle := 1%Z.
Definition SlashStyle : SeparatorStyle := 2%Z.
Definition RailsStyle : SeparatorStyle := 3%Z.

(** Go's [error]: [None] is the nil error. *)
Inductive error_value : Type :=
| NotValidInputError
| JSONError (msg : string).

Definition error : Type := option error_value.

(** [strconv.Itoa] on a slice index. *)
Definition Itoa (i : nat) : string := NilZero.string_of_uint (Nat.to_uint i).

(** ** Loops

    [for k, v := range m] and [for i, v := range arr], threading the state
    [s] that the loop body updates. *)
Fixpoint range_map {A St : Type} (body : St → string → A → St)
    (kvs : list (string * A)) (s : St) : St :=
  match kvs with
  | [] => s
  | (k, v) :: rest => range_map body rest (body s k v)
  end.

Fixpoint range_slice {A St : Type} (body : St → nat → A → St)
    (i : nat) (xs : list A) (s : St) : St :=
  match xs with
  | [] => s
  | v :: rest => range_slice body (S i) rest (body s i v)
  end.

(** ** Key encoder *)

Definition enkey (top : bool) (prefix subkey : string) (style : SeparatorStyle)
  : string :=
  let key := prefix in
  if top then key +:+ subkey
  else if (style =? DotStyle)%Z then key +:+ ("." +:+ subkey)
  else if (style =? SlashStyle)%Z then key +:+ ("/" +:+ subkey)
  else if (style =? RailsStyle)%Z then key +:+ ("[" +:+ subkey +:+ "]")
  else key.

(** ** All-primitives predicate *)

Definition isPrimitive (item : value) : bool :=
  match item with
  | VString _ | VInt32 _ | VInt64 _ | VFloat32 _ | VFloat64 _ | VNumber _ => true
  | _ => false
  end.

Fixpoint allPrimitives (arr : list value) : bool :=
  match arr with
  | [] => true
  | item :: rest => if isPrimitive item then allPrimitives rest else false
  end.

(** ** Map variant *)

(** The closure [assign] of [flatten]; [rec] is the recursive call
    [flatten(false, flatMap, v, newKey, style)].  The map is mutated in
    place by the source, so it is threaded through. *)
Definition flatten_assign
    (rec : gmap string value → value → string → gmap string value * error)
    (flatMap : gmap string value) (newKey : string) (v : value)
  : gmap string value * error :=
  let shouldFlatten :=
    match v with
    | VArr xs => negb (allPrimitives xs)
    | VMap _ => true
    | _ => false
    end in
  if negb shouldFlatten then (<[newKey := v]> flatMap, None)
  else rec flatMap v newKey.

Fixpoint flatten (top : bool) (flatMap : gmap string value) (nested : value)
    (prefix : string) (style : SeparatorStyle) {struct nested}
  : gmap string value * error :=
  let assign :=
    flatten_assign (fun fm v newKey => flatten false fm v newKey style) in
  match nested with
  | VMap kvs =>
      (range_map (fun fm k v =>
                    let newKey := enkey top prefix k style in
                    (assign fm newKey v).1) kvs flatMap, None)
  | VArr xs =>
      (range_slice (fun fm i v =>
                      let newKey := enkey top prefix (Itoa i) style in
                      (assign fm newKey v).1) 0 xs flatMap, None)
  | _ => (flatMap, Some NotValidInputError)
  end.

(** What the exported functions hand back: the value and a nil error, or
    a nil value and the error. *)
Inductive result (A : Type) : Type :=
| Ok (a : A)
| Err (e : error_value).
Arguments Ok {A} a.
Arguments Err {A} e.

Definition Flatten (nested : list (string * value)) (prefix : string)
    (style : SeparatorStyle) : result (gmap string value) :=
  let flatmap : gmap string value := ∅ in
  match flatten true flatmap (VMap nested) prefix style with
  | (_, Some err) => Err err
  | (flatmap, None) => Ok flatmap
  end.

(** ** List variant *)

(** [sort.Strings]: increasing order of Go's string comparison, which is
    the lexicographic order on bytes ([String.compare]). *)
Definition str_le (s1 s2 : string) : Prop := String.leb s1 s2 = true.

#[global] Instance str_le_dec (s1 s2 : string) : Decision (str_le s1 s2).
Proof. unfold str_le. apply _. Defined.

Definition sort_Strings (x : list string) : list string := merge_sort str_le x.

Definition join_space (parts : list string) : string :=
  match parts with
  | [] => ""
  | p :: rest => fold_left (fun acc q => acc +:+ " " +:+ q) rest p
  end.

Section ListVariant.

(** [fmt]'s [%v] for a floating-point number of [bitSize] bits with bit
    pattern [bits] (the shortest decimal text that reads back as the same
    number); it comes from Go's [strconv] and is left open here. *)
Variable fmtFloat : Z → Z → string.

(** [fmt.Sprintf("%v", v)].  [flattenAll] never prints a map or a slice,
    both of which it recurses into; their clauses make the function
    total (a map prints its entries by increasing key). *)
Fixpoint Sprint_v (v : value) : string :=
  match v with
  | VNil => "<nil>"
  | VBool b => if b then "true" else "false"
  | VString s => s
  | VInt n | VInt32 n | VInt64 n => NilZero.string_of_int (Z.to_int n)
  | VFloat32 bits => fmtFloat 32 bits
  | VFloat64 bits => fmtFloat 64 bits
  | VNumber s => s
  | VOther _ shown => shown
  | VArr xs => "[" +:+ join_space (map Sprint_v xs) +:+ "]"
  | VMap kvs =>
      "map[" +:+
      join_space
        (map (fun kt : string * string => kt.1 +:+ ":" +:+ kt.2)
           (merge_sort (fun a b : string * string => str_le a.1 b.1)
              (map (fun kv : string * value => (kv.1, Sprint_v kv.2)) kvs)))
      +:+ "]"
  end.

(** The closure [assign] of [flattenAll]; [rec] is the recursive call
    [flattenAll(false, result, v, newKey, style)] and [result] the slice
    behind the pointer. *)
Definition flattenAll_assign
    (rec : list string → value → string → list string * error)
    (result : list string) (newKey : string) (v : value)
  : list string * error :=
  match v with
  | VMap _ | VArr _ =>
      match rec result v newKey with
      | (result, Some err) => (result, Some err)
      | (result, None) => (result, None)
      end
  | _ =>
      let newKey := newKey +:+ "." +:+ Sprint_v v in
      (result ++ [newKey], None)
  end.

Fixpoint flattenAll (top : bool) (result : list string) (nested : value)
    (prefix : string) (style : SeparatorStyle) {struct nested}
  : list string * error :=
  let assign :=
    flattenAll_assign
      (fun res v newKey => flattenAll false res v newKey style) in
  match nested with
  | VMap kvs =>
      (range_map (fun res k v =>
                    let newKey := enkey top prefix k style in
                    (assign res newKey v).1) kvs result, None)
  | VArr xs =>
      (range_slice (fun res i v =>
                      let newKey := enkey top prefix (Itoa i) style in
                      (assign res newKey v).1) 0 xs result, None)
  | _ => (result, Some NotValidInputError)
  end.

Definition FlattenAll (nested : value) (prefix : string)
    (style : SeparatorStyle) (sorted : bool) : result (list string) :=
  let result : list string := [] in
  match flattenAll true result nested prefix style with
  | (_, Some err) => Err err
  | (result, None) =>
      Ok (if sorted then sort_Strings result else result)
  end.

End ListVariant.

(** ** Text variant *)

Section TextVariant.

(** [encoding/json] is outside the package: [Unmarshal] decodes a text
    into a [map[string]interface{}], [Marshal] encodes the flat map. *)
Variable Unmarshal : string → result (list (string * value)).
Variable Marshal : gmap string value → result string.

Definition FlattenString (nestedstr prefix : string)
    (style : SeparatorStyle) : result string :=
  match Unmarshal nestedstr with
  | Err err => Err err
  | Ok nested =>
      match Flatten nested prefix style with
      | Err err => Err err
      | Ok flatmap =>
          match Marshal flatmap with
          | Err err => Err err
          | Ok flatb => Ok flatb
          end
      end
  end.

End TextVariant.

(** ** The visits of a traversal, as a list

    Both traversals walk the tree in the same way and differ in where they
    stop: [leaf v] tells whether the walk stops at [v].  [entries] lists the
    encoded key and the value of every stop, in the order of the walk. *)

Definition is_collection (v : value) : bool :=
  match v with
  | VMap _ | VArr _ => true
  | _ => false
  end.

(** Where the map variant stops: [!shouldFlatten]. *)
Definition stored_whole (v : value) : bool :=
  match v with
  | VArr xs => allPrimitives xs
  | VMap _ => false
  | _ => true
  end.

(** Where the list variant stops: the [default] clause of its [assign]. *)
Definition emitted (v : value) : bool := negb (is_collection v).

Fixpoint flat_range {A B : Type} (f : nat → A → list B) (i : nat)
    (xs : list A) : list B :=
  match xs with
  | [] => []
  | x :: rest => f i x ++ flat_range f (S i) rest
  end.

Section Entries.

Variable leaf : value → bool.
Variable style : SeparatorStyle.

Fixpoint entries (top : bool) (prefix : string) (nested : value)
    {struct nested} : list (string * value) :=
  let at_key newKey v :=
    if leaf v then [(newKey, v)] else entries false newKey v in
  match nested with
  | VMap kvs =>
      flat_map (fun kv => at_key (enkey top prefix kv.1 style) kv.2) kvs
  | VArr xs =>
      flat_range (fun i v => at_key (enkey top prefix (Itoa i) style) v)
        0 xs
  | _ => []
  end.

Definition entries_at (newKey : string) (v : value)
  : list (string * value) :=
  if leaf v then [(newKey, v)] else entries false newKey v.

End Entries.

(** The effect of one [assign(newKey, v)] of [flatten] on the flat map, and
    of one [assign(newKey, v)] of [flattenAll] on the result slice; the
    error that [assign] returns is dropped by both loops. *)
Definition flatten_visit (style : SeparatorStyle) (flatMap : gmap string value)
    (newKey : string) (v : value) : gmap string value :=
  (flatten_assign (fun fm v newKey => flatten false fm v newKey style)
     flatMap newKey v).1.

Definition flattenAll_visit (fmtFloat : Z → Z → string)
    (style : SeparatorStyle) (result : list string) (newKey : string)
    (v : value) : list string :=
  (flattenAll_assign fmtFloat
     (fun res v newKey => flattenAll fmtFloat false res v newKey style)
     result newKey v).1.

Definition store (flatMap : gmap string value) (kv : string * value)
  : gmap string value := <[kv.1 := kv.2]> flatMap.

Definition entry_text (fmtFloat : Z → Z → string) (kv : string * value)
  : string := kv.1 +:+ "." +:+ Sprint_v fmtFloat kv.2.

Definition emit (fmtFloat : Z → Z → string) (res : list string)
    (kv : string * value) : list string :=
  res ++ [entry_text fmtFloat kv].

(** ** Vocabulary of the specification *)

(** A Scalar of the specification: text, boolean, integer, floating-point
    number or number token. *)
Definition is_scalar (v : value) : bool :=
  match v with
  | VBool _ | VString _ | VInt _ | VInt32 _ | VInt64 _
  | VFloat32 _ | VFloat64 _ | VNumber _ => true
  | _ => false
  end.

(** Strictly increasing byte order. *)
Definition str_lt (s1 s2 : string) : Prop := String.ltb s1 s2 = true.

(** [reorder v v']: [v'] is the tree [v] whose maps, at every depth, are
    ranged over in another order. *)
#[warnings="-register-all"]
Inductive reorder : value → value → Prop :=
| reorder_leaf v : is_collection v = false → reorder v v
| reorder_arr xs ys : Forall2 reorder xs ys → reorder (VArr xs) (VArr ys)
| reorder_map kvs mid kvs' :
    Forall2 (fun a b : string * value => a.1 = b.1 ∧ reorder a.2 b.2) kvs mid →
    mid ≡ₚ kvs' →
    reorder (VMap kvs) (VMap kvs').

(** Trees made of Mappings and Scalars only. *)
Fixpoint only_maps_and_scalars (v : value) : bool :=
  match v with
  | VMap kvs => forallb (fun kv => only_maps_and_scalars kv.2) kvs
  | VArr _ => false
  | _ => is_scalar v
  end.

(** The leaves of a tree of Mappings, each with the keys that lead to it. *)
Fixpoint leaf_paths (v : value) : list (list string * value) :=
  match v with
  | VMap kvs =>
      flat_map
        (fun kv =>
           if is_collection kv.2
           then map (fun pv : list string * value => (kv.1 :: pv.1, pv.2))
                  (leaf_paths kv.2)
           else [([kv.1], kv.2)])
        kvs
  | _ => []
  end.

(** [extend_dotted start path]: [start] followed by each key of [path]
    behind a dot. *)
Definition extend_dotted (start : string) (path : list string) : string :=
  foldl (fun acc q => acc +:+ "." +:+ q) start path.

Definition dot_join (path : list string) : string :=
  match path with
  | [] => ""
  | k :: rest => extend_dotted k rest
  end.

(** One entry per leaf, keyed by its dot-joined path. *)
Definition dot_entries (m : list (string * value)) : list (string * value) :=
  map (fun pv : list string * value => (dot_join pv.1, pv.2))
    (leaf_paths (VMap m)).

(** The dynamic types that the type switch of [allPrimitives] lists. *)
Definition primitive_kind (v : value) : Prop :=
  (∃ s, v = VString s) ∨ (∃ n, v = VInt32 n) ∨ (∃ n, v = VInt64 n) ∨
  (∃ bits, v = VFloat32 bits) ∨ (∃ bits, v = VFloat64 bits) ∨
  (∃ s, v = VNumber s).

(** ** Paths, apart from their encoding

    [paths leaf nested] lists, in the order of the walk, the stops of a
    traversal with the segments that lead to each: the keys of the maps and
    the decimal indices of the slices gone through.  It depends neither on
    the prefix nor on the style. *)
Section Paths.

Variable leaf : value → bool.

Fixpoint paths (nested : value) : list (list string * value) :=
  let at_segment (seg : string) (v : value) :=
    if leaf v then [([seg], v)]
    else map (fun pv : list string * value => (seg :: pv.1, pv.2)) (paths v) in
  match nested with
  | VMap kvs => flat_map (fun kv => at_segment kv.1 kv.2) kvs
  | VArr xs => flat_range (fun i v => at_segment (Itoa i) v) 0 xs
  | _ => []
  end.

End Paths.

(** What [enkey] puts behind the parent path below the top level. *)
Definition connective (style : SeparatorStyle) (subkey : string) : string :=
  if (style =? DotStyle)%Z then "." +:+ subkey
  else if (style =? SlashStyle)%Z then "/" +:+ subkey
  else if (style =? RailsStyle)%Z then "[" +:+ subkey +:+ "]"
  else "".

Definition connectives (style : SeparatorStyle) (segs : list string) : string :=
  foldr (fun seg acc => connective style seg +:+ acc) "" segs.

(** The key of a path: the prefix, the first segment as it is, every
    further segment with the connective of the style. *)
Definition path_key (style : SeparatorStyle) (prefix : string)
    (segs : list string) : string :=
  match segs with
  | [] => prefix
  | first :: rest => (prefix +:+ first) +:+ connectives style rest
  end.

Definition keyed (style : SeparatorStyle) (prefix : string)
    (pv : list string * value) : string * value :=
  (path_key style prefix pv.1, pv.2).

(** The same below a key already encoded: every segment takes the
    connective of the style. *)
Definition keyed_below (style : SeparatorStyle) (newKey : string)
    (pv : list string * value) : string * value :=
  (newKey +:+ connectives style pv.1, pv.2).

Definition known_style (style : SeparatorStyle) : Prop :=
  style = DotStyle ∨ style = SlashStyle ∨ style = RailsStyle.

(** ** Sample inputs *)

(** The nested value of the package documentation. *)
Definition doc_example : list (string * value) :=
  [("one", VMap [("two", VArr [VString "2a"; VString "2b"])]);
   ("side", VString "value")].

(** A slice of booleans under a key. *)
Definition bool_slice_example : list (string * value) :=
  [("k", VArr [VBool true])].

(** A struct value one level down. *)
Definition struct_example : list (string * value) :=
  [("a", VOther "struct {}" "{}")].

(** Two leaves whose encoded keys coincide in the dot style. *)
Definition colliding_example : list (string * value) :=
  [("a", VMap [("b", VString "c")]); ("a.b", VString "c")].

(** A nested map without slices, from the tests of the package. *)
Definition nested_example : list (string * value) :=
  [("a", VMap [("b", VString "c")]); ("e", VString "f")].

(** A flat map. *)
Definition flat_example : list (string * value) :=
  [("a", VString "b"); ("n", VInt64 7); ("ok", VBool true)].

(** Two leaves with the same dot key and different values. *)
Definition overwrite_example : list (string * value) :=
  [("a", VMap [("b", VString "first")]); ("a.b", VString "second")].

(** A tree with slices, from the tests of the package. *)
Definition alist_example : list (string * value) :=
  [("n1", VMap [("alist", VArr [VString "a"; VString "b";
                                 VMap [("d", VString "other")]])]);
   ("fee", VString "bar")].

(** * Properties *)

(** ** Induction over a tree *)

Lemma value_tree_ind (P : value → Prop) :
  (∀ v, is_collection v = false → P v) →
  (∀ xs, Forall P xs → P (VArr xs)) →
  (∀ kvs, Forall (fun kv => P kv.2) kvs → P (VMap kvs)) →
  ∀ v, P v.
Proof.
  intros Hleaf Harr Hmap. fix go 1. intros v.
  destruct v; try (apply Hleaf; reflexivity).
  - apply Harr. induction xs as [|x xs IH]; constructor; [apply go | exact IH].
  - apply Hmap. induction kvs as [|[k x] kvs IH]; constructor;
      [apply go | exact IH].
Qed.

(** ** The byte order on strings *)

Lemma string_compare_refl (s : string) : String.compare s s = Eq.
Proof.
  induction s as [|c s IH]; simpl; [reflexivity|].
  unfold Ascii.compare. rewrite N.compare_refl. exact IH.
Qed.

Lemma string_compare_Lt_trans (s1 s2 s3 : string) :
  String.compare s1 s2 = Lt → String.compare s2 s3 = Lt →
  String.compare s1 s3 = Lt.
Proof.
  revert s2 s3. induction s1 as [|c1 s1 IH]; intros [|c2 s2] [|c3 s3];
    simpl; try congruence.
  unfold Ascii.compare.
  destruct (N.compare_spec (Ascii.N_of_ascii c1) (Ascii.N_of_ascii c2)) as [E12|L12|G12];
    try discriminate;
    destruct (N.compare_spec (Ascii.N_of_ascii c2) (Ascii.N_of_ascii c3)) as [E23|L23|G23];
    try discriminate; intros H12 H23.
  - rewrite E12, E23, N.compare_refl. eauto.
  - rewrite E12. by apply N.compare_lt_iff in L23 as ->.
  - rewrite <- E23. by apply N.compare_lt_iff in L12 as ->.
  - assert (Ascii.N_of_ascii c1 < Ascii.N_of_ascii c3)%N as L13 by lia.
    by apply N.compare_lt_iff in L13 as ->.
Qed.

#[global] Instance str_le_refl : Reflexive str_le.
Proof. intros s. unfold str_le, String.leb. by rewrite string_compare_refl. Qed.

#[global] Instance str_le_trans : Transitive str_le.
Proof.
  intros s1 s2 s3. unfold str_le, String.leb.
  destruct (String.compare s1 s2) eqn:H12; try discriminate;
    destruct (String.compare s2 s3) eqn:H23; try discriminate; intros _ _.
  - apply String.compare_eq_iff in H12, H23. subst.
    by rewrite string_compare_refl.
  - apply String.compare_eq_iff in H12. subst. by rewrite H23.
  - apply String.compare_eq_iff in H23. subst. by rewrite H12.
  - by rewrite (string_compare_Lt_trans _ _ _ H12 H23).
Qed.

#[global] Instance str_le_antisym : AntiSymm (=) str_le.
Proof. intros s1 s2. apply String.leb_antisym. Qed.

#[global] Instance str_le_total : Total str_le.
Proof. intros s1 s2. apply String.leb_total. Qed.

Lemma sort_Strings_sorted (x : list string) :
  StronglySorted str_le (sort_Strings x).
Proof. apply (StronglySorted_merge_sort str_le). Qed.

Lemma sort_Strings_perm (x : list string) : sort_Strings x ≡ₚ x.
Proof. apply (merge_sort_Permutation str_le). Qed.

Lemma sort_Strings_order_free (x y : list string) :
  x ≡ₚ y → sort_Strings x = sort_Strings y.
Proof.
  intros Hxy. apply (StronglySorted_unique str_le);
    [apply sort_Strings_sorted | apply sort_Strings_sorted |].
  by rewrite !sort_Strings_perm.
Qed.

(** ** The traversals, loop by loop *)

Lemma flatten_VMap top fm kvs prefix style :
  flatten top fm (VMap kvs) prefix style =
  (range_map (fun fm k v => flatten_visit style fm (enkey top prefix k style) v)
     kvs fm, None).
Proof. reflexivity. Qed.

Lemma flatten_VArr top fm xs prefix style :
  flatten top fm (VArr xs) prefix style =
  (range_slice
     (fun fm i v => flatten_visit style fm (enkey top prefix (Itoa i) style) v)
     0 xs fm, None).
Proof. reflexivity. Qed.

Lemma flatten_leaf top fm v prefix style :
  is_collection v = false →
  flatten top fm v prefix style = (fm, Some NotValidInputError).
Proof. by destruct v. Qed.

Lemma flatten_visit_whole style fm newKey v :
  stored_whole v = true → flatten_visit style fm newKey v = <[newKey := v]> fm.
Proof.
  unfold flatten_visit, flatten_assign.
  destruct v; simpl; try done. by intros ->.
Qed.

Lemma flatten_visit_descend style fm newKey v :
  stored_whole v = false →
  flatten_visit style fm newKey v = (flatten false fm v newKey style).1.
Proof.
  unfold flatten_visit, flatten_assign.
  destruct v; simpl; try done. by intros ->.
Qed.

Lemma range_map_entries {St B : Type} (act : St → B → St)
    (body : St → string → value → St) (f : string → value → list B)
    (kvs : list (string * value)) :
  Forall (fun kv => ∀ s, body s kv.1 kv.2 = foldl act s (f kv.1 kv.2)) kvs →
  ∀ s, range_map body kvs s =
       foldl act s (flat_map (fun kv => f kv.1 kv.2) kvs).
Proof.
  induction 1 as [|[k v] kvs Hkv _ IH]; intros s; simpl; [done|].
  by rewrite foldl_app, <- IH, Hkv.
Qed.

Lemma range_slice_entries {St B : Type} (act : St → B → St)
    (body : St → nat → value → St) (f : nat → value → list B)
    (xs : list value) :
  Forall (fun v => ∀ s i, body s i v = foldl act s (f i v)) xs →
  ∀ s i, range_slice body i xs s = foldl act s (flat_range f i xs).
Proof.
  induction 1 as [|v xs Hv _ IH]; intros s i; simpl; [done|].
  by rewrite foldl_app, <- IH, Hv.
Qed.

Lemma flatten_entries style (nested : value) :
  ∀ top fm prefix,
    (flatten top fm nested prefix style).1 =
    foldl store fm (entries stored_whole style top prefix nested).
Proof.
  induction nested as [v Hv|xs IH|kvs IH] using value_tree_ind;
    intros top fm prefix.
  - rewrite flatten_leaf by done. by destruct v.
  - rewrite flatten_VArr. simpl.
    apply (range_slice_entries store). eapply Forall_impl; [exact IH|].
    intros v IHv s i. simpl. destruct (stored_whole v) eqn:Hw.
    + by rewrite flatten_visit_whole.
    + rewrite flatten_visit_descend by done. apply IHv.
  - rewrite flatten_VMap. simpl.
    apply (range_map_entries store
             (fun fm k v => flatten_visit style fm (enkey top prefix k style) v)
             (fun k v => entries_at stored_whole style
                           (enkey top prefix k style) v)).
    eapply Forall_impl; [exact IH|].
    intros [k v] IHv s. simpl. unfold entries_at.
    destruct (stored_whole v) eqn:Hw.
    + by rewrite flatten_visit_whole.
    + rewrite flatten_visit_descend by done. apply IHv.
Qed.

Lemma flatten_error top fm nested prefix style :
  (flatten top fm nested prefix style).2 =
  if is_collection nested then None else Some NotValidInputError.
Proof. by destruct nested. Qed.

Section ListVariantFacts.

Variable fmtFloat : Z → Z → string.

Local Abbreviation emit := (emit fmtFloat).

Lemma foldl_emit (l : list (string * value)) (res : list string) :
  foldl emit res l = res ++ map (entry_text fmtFloat) l.
Proof.
  revert res. induction l as [|kv l IH]; intros res; simpl.
  - by rewrite app_nil_r.
  - rewrite IH. unfold emit. by rewrite <- app_assoc.
Qed.

Lemma flattenAll_VMap top res kvs prefix style :
  flattenAll fmtFloat top res (VMap kvs) prefix style =
  (range_map
     (fun res k v =>
        flattenAll_visit fmtFloat style res (enkey top prefix k style) v)
     kvs res, None).
Proof. reflexivity. Qed.

Lemma flattenAll_VArr top res xs prefix style :
  flattenAll fmtFloat top res (VArr xs) prefix style =
  (range_slice
     (fun res i v =>
        flattenAll_visit fmtFloat style res
          (enkey top prefix (Itoa i) style) v)
     0 xs res, None).
Proof. reflexivity. Qed.

Lemma flattenAll_leaf top res v prefix style :
  is_collection v = false →
  flattenAll fmtFloat top res v prefix style =
  (res, Some NotValidInputError).
Proof. by destruct v. Qed.

Lemma flattenAll_error top res nested prefix style :
  (flattenAll fmtFloat top res nested prefix style).2 =
  if is_collection nested then None else Some NotValidInputError.
Proof. by destruct nested. Qed.

Lemma flattenAll_visit_emit style res newKey v :
  is_collection v = false →
  flattenAll_visit fmtFloat style res newKey v =
  res ++ [newKey +:+ "." +:+ Sprint_v fmtFloat v].
Proof. by destruct v. Qed.

Lemma flattenAll_visit_descend style res newKey v :
  is_collection v = true →
  flattenAll_visit fmtFloat style res newKey v =
  (flattenAll fmtFloat false res v newKey style).1.
Proof.
  unfold flattenAll_visit, flattenAll_assign. intros Hv.
  destruct v; try discriminate;
    by destruct (flattenAll _ _ _ _ _ _) as [r [e|]].
Qed.

Lemma flattenAll_entries style (nested : value) :
  ∀ top res prefix,
    (flattenAll fmtFloat top res nested prefix style).1 =
    res ++ map (entry_text fmtFloat) (entries emitted style top prefix nested).
Proof.
  induction nested as [v Hv|xs IH|kvs IH] using value_tree_ind;
    intros top res prefix; rewrite <- foldl_emit.
  - rewrite flattenAll_leaf by done. by destruct v.
  - rewrite flattenAll_VArr. simpl.
    apply (range_slice_entries emit). eapply Forall_impl; [exact IH|].
    intros v IHv s i. simpl. unfold emitted.
    destruct (is_collection v) eqn:Hc; simpl.
    + rewrite flattenAll_visit_descend, foldl_emit by done. apply IHv.
    + by rewrite flattenAll_visit_emit.
  - rewrite flattenAll_VMap. simpl.
    apply (range_map_entries emit
             (fun res k v =>
                flattenAll_visit fmtFloat style res
                  (enkey top prefix k style) v)
             (fun k v => entries_at emitted style
                           (enkey top prefix k style) v)).
    eapply Forall_impl; [exact IH|].
    intros [k v] IHv s. simpl. unfold entries_at, emitted.
    destruct (is_collection v) eqn:Hc; simpl.
    + rewrite flattenAll_visit_descend, foldl_emit by done. apply IHv.
    + by rewrite flattenAll_visit_emit.
Qed.

End ListVariantFacts.

(** ** The flat map as a fold over the visits *)


Lemma foldl_store_dom (l : list (string * value)) (fm : gmap string value)
    (k : string) :
  k ∈ dom (foldl store fm l) ↔ k ∈ dom fm ∨ k ∈ l.*1.
Proof.
  revert fm. induction l as [|[k' v] l IH]; intros fm; simpl.
  - rewrite elem_of_nil. tauto.
  - rewrite IH. unfold store. simpl.
    rewrite dom_insert, elem_of_union, elem_of_singleton, elem_of_cons.
    intuition congruence.
Qed.

Lemma foldl_store_list_to_map (l : list (string * value)) :
  NoDup l.*1 → foldl store ∅ l = list_to_map l.
Proof.
  intros Hnd. apply map_eq. intros k.
  induction l as [|[k' v] l IH] using rev_ind; [done|].
  rewrite fmap_app, NoDup_app in Hnd. destruct Hnd as (Hl & Hfresh & _).
  rewrite foldl_snoc. unfold store at 1. simpl.
  rewrite list_to_map_snoc.
  - destruct (decide (k' = k)) as [->|Hne].
    + by rewrite !lookup_insert_eq.
    + rewrite !lookup_insert_ne by done. by apply IH.
  - intros Hin. apply (Hfresh k' Hin). simpl. apply list_elem_of_here.
Qed.

Lemma entries_VMap_elem leaf style top prefix kvs k v e :
  (k, v) ∈ kvs →
  e ∈ entries_at leaf style (enkey top prefix k style) v →
  e ∈ entries leaf style top prefix (VMap kvs).
Proof.
  intros Hkv He. simpl. apply list_elem_of_In, in_flat_map.
  exists (k, v). split; by apply list_elem_of_In.
Qed.

Lemma Flatten_entries nested prefix style :
  Flatten nested prefix style =
  Ok (foldl store ∅ (entries stored_whole style true prefix (VMap nested))).
Proof.
  unfold Flatten. rewrite <- flatten_entries.
  by rewrite flatten_VMap.
Qed.


(** ** Key encoder *)

Lemma enkey_top prefix subkey style :
  enkey true prefix subkey style = prefix +:+ subkey.
Proof. reflexivity. Qed.

Lemma enkey_dot prefix subkey :
  enkey false prefix subkey DotStyle = prefix +:+ "." +:+ subkey.
Proof. reflexivity. Qed.

(** C1.  On the nested value of the package documentation, with the dot
    style and no prefix, [Flatten] keeps the slice ["2a", "2b"] whole under
    the key [one.two]: the flat map has the two keys [one.two] and [side],
    and neither [one.two.0] nor [one.two.1]. *)
Theorem Flatten_doc_example :
  Flatten doc_example "" DotStyle =
    Ok (<["one.two" := VArr [VString "2a"; VString "2b"]]>
          (<["side" := VString "value"]> ∅)) ∧
  Flatten doc_example "" DotStyle ≠
    Ok (<["one.two.0" := VString "2a"]>
          (<["one.two.1" := VString "2b"]> (<["side" := VString "value"]> ∅))).
Proof.
  assert (Flatten doc_example "" DotStyle =
    Ok (<["one.two" := VArr [VString "2a"; VString "2b"]]>
          (<["side" := VString "value"]> ∅))) as E by (vm_compute; reflexivity).
  split; [exact E|]. rewrite E. intros H.
  assert (∀ a b : gmap string value, Ok a = Ok b → a = b) as Hinj
    by (intros a b Hab; congruence).
  apply Hinj in H.
  apply (f_equal (fun m : gmap string value => m !! "one.two")) in H.
  vm_compute in H. discriminate.
Qed.


(** C5.  The key encoder returns [parentPath + childKey] at the top level,
    and below it [parentPath] followed by ["." + childKey] (dot),
    ["/" + childKey] (slash) or ["[" + childKey + "]"] (Rails).  Hence
    [Flatten] with prefix ["p:"] and the dot style has the key
    ["p:" + topLevelKey] for every top-level entry that it stores and the
    key ["p:" + topLevelKey + "." + childKey] for every entry that it stores
    of a map one level down. *)
Theorem enkey_styles_and_prefix :
  ∀ (parentPath childKey : string) (style : SeparatorStyle)
    (m : list (string * value)),
    enkey true parentPath childKey style = parentPath +:+ childKey ∧
    enkey false parentPath childKey DotStyle =
      parentPath +:+ "." +:+ childKey ∧
    enkey false parentPath childKey SlashStyle =
      parentPath +:+ "/" +:+ childKey ∧
    enkey false parentPath childKey RailsStyle =
      parentPath +:+ "[" +:+ childKey +:+ "]" ∧
    ∃ flat, Flatten m "p:" DotStyle = Ok flat ∧
      (∀ k v, (k, v) ∈ m → stored_whole v = true →
              "p:" +:+ k ∈ dom flat) ∧
      (∀ k sub c w, (k, VMap sub) ∈ m → (c, w) ∈ sub →
              stored_whole w = true →
              ("p:" +:+ k) +:+ "." +:+ c ∈ dom flat).
Proof.
  intros parentPath childKey style m. do 4 (split; [reflexivity|]).
  eexists. split; [apply Flatten_entries|]. split.
  - intros k v Hkv Hv. apply foldl_store_dom. right.
    apply (list_elem_of_fmap_2 fst _ ("p:" +:+ k, v)).
    eapply entries_VMap_elem; [exact Hkv|].
    unfold entries_at. rewrite Hv, enkey_top. apply list_elem_of_here.
  - intros k sub c w Hk Hc Hw. apply foldl_store_dom. right.
    apply (list_elem_of_fmap_2 fst _ (("p:" +:+ k) +:+ "." +:+ c, w)).
    eapply entries_VMap_elem; [exact Hk|].
    unfold entries_at. simpl stored_whole. cbv iota. rewrite enkey_top.
    eapply entries_VMap_elem; [exact Hc|].
    unfold entries_at. rewrite Hw, enkey_dot. apply list_elem_of_here.
Qed.

(** C6, as stated, fails: below the top level the unnamed style 0 does not
    append the child key. *)
Lemma enkey_zero_style_not_appended :
  enkey false "a" "b" 0%Z ≠ "a" +:+ "b" ∧
  enkey false "a" "b" 0%Z ≠ enkey true "a" "b" 0%Z.
Proof. split; vm_compute; discriminate. Qed.

(** C6, amended.  Below the top level, a style that is none of dot, slash
    and Rails (the unnamed value 0 among them) is not rejected: the key
    encoder returns the parent path alone, and the child key is left out. *)
Theorem enkey_unknown_style :
  ∀ (parentPath childKey : string) (style : SeparatorStyle),
    style ≠ DotStyle → style ≠ SlashStyle → style ≠ RailsStyle →
    enkey false parentPath childKey style = parentPath.
Proof.
  intros parentPath childKey style Hd Hs Hr. unfold enkey.
  apply Z.eqb_neq in Hd, Hs, Hr. by rewrite Hd, Hs, Hr.
Qed.

Lemma enkey_unknown_style_witness : enkey false "a" "b" 0%Z = "a".
Proof.
  apply (enkey_unknown_style "a" "b" 0%Z); unfold DotStyle, SlashStyle,
    RailsStyle; lia.
Defined.

(** ** Flat maps *)

Lemma is_scalar_stored_whole v : is_scalar v = true → stored_whole v = true.
Proof. by destruct v. Qed.

Lemma entries_flat style (m : list (string * value)) :
  Forall (fun kv => is_scalar kv.2 = true) m →
  entries stored_whole style true "" (VMap m) = m.
Proof.
  intros Hm. simpl. induction Hm as [|[k v] m Hv _ IH]; simpl; [done|].
  simpl in Hv. by rewrite (is_scalar_stored_whole v Hv), IH.
Qed.

(** C8.  A Mapping of depth 1, all of whose values are Scalars, is returned
    unchanged by [Flatten] with the empty prefix, in every separator
    style. *)
Theorem Flatten_flat_unchanged :
  ∀ (m : list (string * value)) (style : SeparatorStyle),
    NoDup m.*1 →
    Forall (fun kv => is_scalar kv.2 = true) m →
    Flatten m "" style = Ok (list_to_map m).
Proof.
  intros m style Hnd Hm.
  by rewrite Flatten_entries, entries_flat, foldl_store_list_to_map.
Qed.

Lemma Flatten_flat_unchanged_witness :
  Flatten flat_example "" RailsStyle = Ok (list_to_map flat_example).
Proof.
  apply Flatten_flat_unchanged.
  - apply (bool_decide_unpack (NoDup _)). vm_compute. exact I.
  - repeat constructor.
Defined.

(** ** Slices in the map variant *)

Lemma isPrimitive_kind (v : value) : isPrimitive v = true ↔ primitive_kind v.
Proof.
  unfold primitive_kind. split.
  - destruct v; try discriminate; intros _; eauto 10.
  - intros [[s ->]|[[n ->]|[[n ->]|[[b ->]|[[b ->]|[s ->]]]]]]; reflexivity.
Qed.

Lemma allPrimitives_Forall (arr : list value) :
  allPrimitives arr = true ↔ Forall primitive_kind arr.
Proof.
  induction arr as [|item rest IH]; simpl.
  - split; [constructor | reflexivity].
  - rewrite Forall_cons, <- IH, <- isPrimitive_kind.
    destruct (isPrimitive item); intuition congruence.
Qed.

Lemma allPrimitives_collection (arr : list value) :
  Exists (fun x => is_collection x = true) arr → allPrimitives arr = false.
Proof.
  induction 1 as [x rest Hx|x rest _ IH]; simpl.
  - by destruct x.
  - rewrite IH. by destruct (isPrimitive x).
Qed.

(** C2, as stated, fails: a slice of booleans is made of Scalars, and the
    map variant flattens it element by element. *)
Lemma bool_slice_flattened :
  Forall (fun x => is_scalar x = true) [VBool true] ∧
  Flatten bool_slice_example "" DotStyle = Ok {["k.0" := VBool true]} ∧
  Flatten bool_slice_example "" DotStyle ≠ Ok {["k" := VArr [VBool true]]}.
Proof.
  assert (Flatten bool_slice_example "" DotStyle = Ok {["k.0" := VBool true]})
    as E by (vm_compute; reflexivity).
  split; [repeat constructor|]. split; [exact E|]. rewrite E. intros H.
  assert (∀ a b : gmap string value, Ok a = Ok b → a = b) as Hinj
    by (intros a b Hab; congruence).
  apply Hinj in H.
  apply (f_equal (fun m : gmap string value => m !! "k")) in H.
  vm_compute in H. discriminate.
Qed.

(** ** Errors *)

Lemma Flatten_Ok nested prefix style :
  ∃ flat, Flatten nested prefix style = Ok flat.
Proof. eexists. apply Flatten_entries. Qed.

Lemma FlattenAll_collection fmtFloat nested prefix style sorted :
  is_collection nested = true →
  FlattenAll fmtFloat nested prefix style sorted =
  Ok (let result :=
        map (entry_text fmtFloat) (entries emitted style true prefix nested) in
      if sorted then sort_Strings result else result).
Proof.
  intros Hc. unfold FlattenAll.
  pose proof (flattenAll_entries fmtFloat style nested true [] prefix) as E.
  pose proof (flattenAll_error fmtFloat true [] nested prefix style) as He.
  rewrite Hc in He.
  destruct (flattenAll fmtFloat true [] nested prefix style) as [r e].
  simpl in E, He. by subst.
Qed.

Lemma FlattenAll_not_collection fmtFloat nested prefix style sorted :
  is_collection nested = false →
  FlattenAll fmtFloat nested prefix style sorted = Err NotValidInputError.
Proof.
  intros Hc. unfold FlattenAll. by rewrite flattenAll_leaf.
Qed.

(** C3, as stated, fails: a struct one level down is neither Mapping,
    Sequence nor Scalar, and both traversals return without an error. *)
Lemma nested_struct_no_error :
  is_collection (VOther "struct {}" "{}") = false ∧
  is_scalar (VOther "struct {}" "{}") = false ∧
  Flatten struct_example "" DotStyle =
    Ok {["a" := VOther "struct {}" "{}"]} ∧
  (∀ fmtFloat,
     FlattenAll fmtFloat (VMap struct_example) "" DotStyle false =
       Ok ["a.{}"]).
Proof.
  do 2 (split; [reflexivity|]). split; [vm_compute; reflexivity|].
  intros fmtFloat. reflexivity.
Qed.

(** C3, amended.  [NotValidInputError] is returned exactly when the
    top-level argument of the traversal is neither a Mapping nor a Sequence
    (a bare Scalar given to [FlattenAll] included), and then nothing else is
    returned; for a Mapping or a Sequence at the top level, whatever it
    holds at any depth, a result is returned without an error, so [Flatten],
    whose argument is a Mapping, always returns a flat map. *)
Theorem NotValidInputError_top_level :
  ∀ (fmtFloat : Z → Z → string) (nested : value) (m : list (string * value))
    (prefix : string) (style : SeparatorStyle) (sorted : bool),
    (FlattenAll fmtFloat nested prefix style sorted = Err NotValidInputError
     ↔ is_collection nested = false) ∧
    (is_collection nested = true →
     ∃ out, FlattenAll fmtFloat nested prefix style sorted = Ok out) ∧
    (∃ flat, Flatten m prefix style = Ok flat).
Proof.
  intros fmtFloat nested m prefix style sorted. split; [|split].
  - destruct (is_collection nested) eqn:Hc.
    + rewrite FlattenAll_collection by done. split; discriminate.
    + by rewrite FlattenAll_not_collection.
  - intros Hc. eexists. by apply FlattenAll_collection.
  - apply Flatten_Ok.
Qed.

Lemma flatten_assign_no_error style fm newKey v :
  (flatten_assign (fun fm v newKey => flatten false fm v newKey style)
     fm newKey v).2 = None.
Proof.
  unfold flatten_assign. destruct v; try reflexivity.
  simpl. by destruct (allPrimitives xs).
Qed.

Lemma flattenAll_assign_no_error fmtFloat style res newKey v :
  (flattenAll_assign fmtFloat
     (fun res v newKey => flattenAll fmtFloat false res v newKey style)
     res newKey v).2 = None.
Proof. by destruct v. Qed.

(** C10.  Both loops of both traversals keep only the map, or the slice,
    that [assign] has updated and drop the error it returns; [assign] stores,
    or emits, every value that is neither a Mapping nor a Sequence as a leaf
    and returns a nil error, and never returns an error for any value.  The
    error of a traversal is therefore decided by its own argument alone:
    nil for a Mapping or a Sequence, [NotValidInputError] otherwise.
    [Flatten], whose argument is a Mapping, returns a flat map and a nil
    error for every input, the map without entries included. *)
Theorem assign_error_dropped :
  ∀ (fmtFloat : Z → Z → string) (style : SeparatorStyle) (top : bool)
    (prefix : string),
    (∀ fm kvs,
       flatten top fm (VMap kvs) prefix style =
       (range_map
          (fun fm k v =>
             (flatten_assign
                (fun fm v newKey => flatten false fm v newKey style)
                fm (enkey top prefix k style) v).1) kvs fm, None)) ∧
    (∀ fm xs,
       flatten top fm (VArr xs) prefix style =
       (range_slice
          (fun fm i v =>
             (flatten_assign
                (fun fm v newKey => flatten false fm v newKey style)
                fm (enkey top prefix (Itoa i) style) v).1) 0 xs fm, None)) ∧
    (∀ res kvs,
       flattenAll fmtFloat top res (VMap kvs) prefix style =
       (range_map
          (fun res k v =>
             (flattenAll_assign fmtFloat
                (fun res v newKey =>
                   flattenAll fmtFloat false res v newKey style)
                res (enkey top prefix k style) v).1) kvs res, None)) ∧
    (∀ res xs,
       flattenAll fmtFloat top res (VArr xs) prefix style =
       (range_slice
          (fun res i v =>
             (flattenAll_assign fmtFloat
                (fun res v newKey =>
                   flattenAll fmtFloat false res v newKey style)
                res (enkey top prefix (Itoa i) style) v).1) 0 xs res, None)) ∧
    (∀ rec fm newKey v,
       is_collection v = false →
       flatten_assign rec fm newKey v = (<[newKey := v]> fm, None)) ∧
    (∀ rec res newKey v,
       is_collection v = false →
       flattenAll_assign fmtFloat rec res newKey v =
       (res ++ [newKey +:+ "." +:+ Sprint_v fmtFloat v], None)) ∧
    (∀ fm newKey v,
       (flatten_assign (fun fm v newKey => flatten false fm v newKey style)
          fm newKey v).2 = None) ∧
    (∀ res newKey v,
       (flattenAll_assign fmtFloat
          (fun res v newKey => flattenAll fmtFloat false res v newKey style)
          res newKey v).2 = None) ∧
    (∀ fm nested,
       (flatten top fm nested prefix style).2 =
       if is_collection nested then None else Some NotValidInputError) ∧
    (∀ res nested,
       (flattenAll fmtFloat top res nested prefix style).2 =
       if is_collection nested then None else Some NotValidInputError) ∧
    (∀ m, ∃ flat, Flatten m prefix style = Ok flat) ∧
    Flatten [] prefix style = Ok ∅.
Proof.
  intros fmtFloat style top prefix.
  do 4 (split; [reflexivity|]).
  split; [by intros rec fm newKey []|].
  split; [by intros rec res newKey []|].
  split; [intros; apply flatten_assign_no_error|].
  split; [intros; apply flattenAll_assign_no_error|].
  split; [intros; apply flatten_error|].
  split; [intros; apply flattenAll_error|].
  split; [intros; apply Flatten_Ok|reflexivity].
Qed.

(** ** The list variant, entry by entry *)

Lemma range_slice_scalars fmtFloat style top prefix (xs : list value) :
  Forall (fun x => is_scalar x = true) xs →
  ∀ res i,
    range_slice
      (fun res j v =>
         flattenAll_visit fmtFloat style res
           (enkey top prefix (Itoa j) style) v) i xs res =
    res ++ imap (fun j x => enkey top prefix (Itoa (i + j)) style +:+ "." +:+
                            Sprint_v fmtFloat x) xs.
Proof.
  induction 1 as [|x xs Hx _ IH]; intros res i; simpl.
  - by rewrite app_nil_r.
  - rewrite flattenAll_visit_emit by (by destruct x).
    rewrite IH, <- app_assoc, Nat.add_0_r. simpl. do 2 f_equal.
    apply imap_ext. intros j y _. simpl. by rewrite Nat.add_succ_r.
Qed.

(** C4.  In the list variant a visited Mapping and a visited Sequence are
    always recursed into, entry by entry, and every other visited value
    appends the one text [childPath + "." + value as text] to the result;
    the result of a traversal is thus one text per leaf, in the order of the
    visits.  In particular a Sequence of Scalars gives one text per
    element. *)
Theorem flattenAll_visits :
  ∀ (fmtFloat : Z → Z → string) (style : SeparatorStyle)
    (res : list string) (newKey : string) (v : value) (top : bool)
    (prefix : string) (xs : list value),
    flattenAll_visit fmtFloat style res newKey v =
      match v with
      | VMap kvs =>
          range_map
            (fun res k v =>
               flattenAll_visit fmtFloat style res
                 (enkey false newKey k style) v) kvs res
      | VArr ys =>
          range_slice
            (fun res i v =>
               flattenAll_visit fmtFloat style res
                 (enkey false newKey (Itoa i) style) v) 0 ys res
      | _ => res ++ [newKey +:+ "." +:+ Sprint_v fmtFloat v]
      end ∧
    (flattenAll fmtFloat top res v prefix style).1 =
      res ++ map (fun kv => kv.1 +:+ "." +:+ Sprint_v fmtFloat kv.2)
               (entries (fun v => negb (is_collection v)) style top prefix v) ∧
    (Forall (fun x => is_scalar x = true) xs →
     flattenAll fmtFloat top res (VArr xs) prefix style =
       (res ++ imap (fun i x => enkey top prefix (Itoa i) style +:+ "." +:+
                                Sprint_v fmtFloat x) xs, None)).
Proof.
  intros fmtFloat style res newKey v top prefix xs. split; [|split].
  - destruct v; reflexivity.
  - apply flattenAll_entries.
  - intros Hxs. rewrite flattenAll_VArr. f_equal.
    by rewrite (range_slice_scalars fmtFloat style top prefix xs Hxs).
Qed.

(** ** Order of the visits and sorting *)

Lemma reorder_leaf_inv v v' :
  reorder v v' → is_collection v = false → v' = v.
Proof. by destruct 1. Qed.

Lemma reorder_collection v v' :
  reorder v v' → is_collection v' = is_collection v.
Proof. by destruct 1. Qed.

Lemma entries_at_reorder style newKey v v' :
  reorder v v' →
  (∀ v' : value, reorder v v' → ∀ top prefix,
     entries emitted style top prefix v ≡ₚ entries emitted style top prefix v') →
  entries_at emitted style newKey v ≡ₚ entries_at emitted style newKey v'.
Proof.
  intros Hr IH. unfold entries_at, emitted.
  rewrite (reorder_collection v v' Hr).
  destruct (is_collection v) eqn:Hc; simpl.
  - by apply IH.
  - by rewrite (reorder_leaf_inv v v' Hr Hc).
Qed.

Lemma entries_reorder style (v : value) :
  ∀ v', reorder v v' → ∀ top prefix,
    entries emitted style top prefix v ≡ₚ entries emitted style top prefix v'.
Proof.
  induction v as [v Hv|xs IH|kvs IH] using value_tree_ind;
    intros v' Hr top prefix.
  - by rewrite (reorder_leaf_inv v v' Hr Hv).
  - inversion Hr as [? Hc|? ys Hxy|]; subst; [done|]. simpl.
    clear Hr. generalize 0.
    induction Hxy as [|x y xs ys Hx _ IHxs]; intros i; [done|].
    apply Forall_cons in IH as [IHx IH]. simpl.
    apply Permutation_app; [|by apply IHxs].
    by apply (entries_at_reorder style _ x y).
  - inversion Hr as [? Hc| |? mid kvs' Hmid Hperm]; subst; [done|]. simpl.
    etransitivity; [|by apply Permutation_flat_map].
    clear Hperm Hr. induction Hmid as [|[k x] [k' y] kvs mid [Hk Hx] _ IHkvs];
      [done|].
    apply Forall_cons in IH as [IHx IH]. simpl in *. subst k'.
    apply Permutation_app; [|by apply IHkvs].
    by apply (entries_at_reorder style _ x y).
Qed.

(** C7, as stated, fails: two leaves can give the same text, and the sorted
    result then holds it twice, which is not strictly ascending. *)
Lemma FlattenAll_sorted_not_strict :
  (∀ fmtFloat,
     FlattenAll fmtFloat (VMap colliding_example) "" DotStyle true =
       Ok ["a.b.c"; "a.b.c"]) ∧
  ¬ Sorted str_lt ["a.b.c"; "a.b.c"].
Proof.
  split; [intros fmtFloat; vm_compute; reflexivity|].
  intros H. inversion H as [|? ? _ Hhd]; subst.
  inversion Hhd as [|? ? Hlt]; subst. vm_compute in Hlt. discriminate.
Qed.

(** C7, amended.  For a Mapping or a Sequence, [FlattenAll] with
    [sorted = true] returns the texts of the traversal, each as many times
    as the traversal gives it, in ascending byte order (equal texts side by
    side), and returns the same list whatever the order in which the maps of
    the tree are ranged over. *)
Theorem FlattenAll_sorted :
  ∀ (fmtFloat : Z → Z → string) (nested nested' : value) (prefix : string)
    (style : SeparatorStyle),
    is_collection nested = true →
    reorder nested nested' →
    ∃ out visited,
      FlattenAll fmtFloat nested prefix style true = Ok out ∧
      FlattenAll fmtFloat nested prefix style false = Ok visited ∧
      StronglySorted str_le out ∧
      out ≡ₚ visited ∧
      FlattenAll fmtFloat nested' prefix style true = Ok out.
Proof.
  intros fmtFloat nested nested' prefix style Hc Hr.
  assert (is_collection nested' = true) as Hc'
    by (by rewrite (reorder_collection nested nested' Hr)).
  rewrite !FlattenAll_collection by done. simpl.
  eexists _, _. do 2 (split; [reflexivity|]).
  split; [apply sort_Strings_sorted|]. split; [apply sort_Strings_perm|].
  f_equal. apply sort_Strings_order_free, Permutation_map.
  symmetry. by apply entries_reorder.
Qed.

Lemma FlattenAll_sorted_witness :
  ∃ out visited,
    FlattenAll (fun _ _ => "")
      (VMap [("b", VString "x"); ("a", VArr [VBool true; VInt 3])])
      "" DotStyle true = Ok out ∧
    FlattenAll (fun _ _ => "")
      (VMap [("b", VString "x"); ("a", VArr [VBool true; VInt 3])])
      "" DotStyle false = Ok visited ∧
    StronglySorted str_le out ∧
    out ≡ₚ visited ∧
    FlattenAll (fun _ _ => "")
      (VMap [("a", VArr [VBool true; VInt 3]); ("b", VString "x")])
      "" DotStyle true = Ok out.
Proof.
  apply FlattenAll_sorted; [reflexivity|].
  apply (reorder_map _ [("b", VString "x"); ("a", VArr [VBool true; VInt 3])]).
  - constructor; [split; [reflexivity|by apply reorder_leaf]|].
    constructor; [split; [reflexivity|]|constructor].
    apply reorder_arr.
    constructor; [by apply reorder_leaf|].
    constructor; [by apply reorder_leaf|constructor].
  - apply perm_swap.
Defined.

(** ** Dot-joined paths *)

Lemma only_maps_and_scalars_leaf v :
  only_maps_and_scalars v = true → is_collection v = false →
  stored_whole v = true.
Proof. by destruct v. Qed.

Lemma only_maps_and_scalars_collection v :
  only_maps_and_scalars v = true → is_collection v = true →
  stored_whole v = false.
Proof. by destruct v. Qed.

Lemma entries_dotted (v : value) :
  only_maps_and_scalars v = true →
  ∀ prefix,
    entries stored_whole DotStyle false prefix v =
    map (fun pv : list string * value => (extend_dotted prefix pv.1, pv.2))
      (leaf_paths v).
Proof.
  induction v as [v Hv|xs _|kvs IH] using value_tree_ind;
    intros Hms prefix.
  - by destruct v.
  - discriminate.
  - simpl in Hms. simpl.
    induction kvs as [|[k x] kvs IHkvs]; [done|].
    apply Forall_cons in IH as [IHx IH].
    simpl in Hms. apply andb_true_iff in Hms as [Hx Hkvs].
    simpl. rewrite map_app, <- (IHkvs IH Hkvs). f_equal.
    destruct (is_collection x) eqn:Hc.
    + rewrite (only_maps_and_scalars_collection x Hx Hc).
      rewrite (IHx Hx), map_map. by apply map_ext.
    + by rewrite (only_maps_and_scalars_leaf x Hx Hc).
Qed.

Lemma entries_dot_entries (m : list (string * value)) :
  only_maps_and_scalars (VMap m) = true →
  entries stored_whole DotStyle true "" (VMap m) = dot_entries m.
Proof.
  unfold dot_entries. simpl.
  induction m as [|[k x] m IH]; intros Hms; [done|].
  simpl in Hms. apply andb_true_iff in Hms as [Hx Hm].
  simpl. rewrite map_app, <- (IH Hm). f_equal.
  destruct (is_collection x) eqn:Hc.
  - rewrite (only_maps_and_scalars_collection x Hx Hc).
    rewrite (entries_dotted x Hx), map_map. by apply map_ext.
  - by rewrite (only_maps_and_scalars_leaf x Hx Hc).
Qed.

Section TextVariantFacts.

Variable Unmarshal : string → result (list (string * value)).
Variable Marshal : gmap string value → result string.

Lemma FlattenString_Marshal nestedstr nested prefix style flat :
  Unmarshal nestedstr = Ok nested →
  Flatten nested prefix style = Ok flat →
  FlattenString Unmarshal Marshal nestedstr prefix style = Marshal flat.
Proof.
  intros Hu Hf. unfold FlattenString. rewrite Hu, Hf.
  by destruct (Marshal flat).
Qed.

(** C9, amended.  Let [m] be a Mapping that holds only Scalars and nested
    Mappings, whose leaves have pairwise distinct dot-joined paths, and let
    [nestedstr] be a serialization of [m] (a text that decodes to [m]).
    Then [FlattenString] with the empty prefix and the dot style returns the
    encoding of a flat map that has exactly one entry per leaf of [m], keyed
    by the dot-joined path of that leaf and holding its value. *)
Theorem FlattenString_one_entry_per_leaf :
  ∀ (nestedstr : string) (m : list (string * value)),
    Unmarshal nestedstr = Ok m →
    only_maps_and_scalars (VMap m) = true →
    NoDup (dot_entries m).*1 →
    ∃ flat,
      Flatten m "" DotStyle = Ok flat ∧
      FlattenString Unmarshal Marshal nestedstr "" DotStyle = Marshal flat ∧
      map_to_list flat ≡ₚ dot_entries m.
Proof.
  intros nestedstr m Hu Hms Hnd.
  exists (list_to_map (dot_entries m)).
  assert (Flatten m "" DotStyle = Ok (list_to_map (dot_entries m))) as Hf
    by (by rewrite Flatten_entries, entries_dot_entries,
             foldl_store_list_to_map).
  split; [exact Hf|]. split.
  - by apply FlattenString_Marshal with m.
  - by apply map_to_list_to_map.
Qed.

End TextVariantFacts.

Lemma FlattenString_one_entry_per_leaf_witness :
  ∃ flat,
    Flatten nested_example "" DotStyle = Ok flat ∧
    FlattenString (fun _ => Ok nested_example) (fun _ => Ok "{}")
      "{}" "" DotStyle = Ok "{}" ∧
    map_to_list flat ≡ₚ dot_entries nested_example.
Proof.
  apply (FlattenString_one_entry_per_leaf
           (fun _ => Ok nested_example) (fun _ => Ok "{}") "{}" nested_example).
  - reflexivity.
  - reflexivity.
  - apply (bool_decide_unpack (NoDup _)). vm_compute. exact I.
Defined.

(** C9, as stated, fails: two leaves of a Mapping of Scalars and Mappings
    can have the same dot-joined path, and the flat map then has one entry
    for both. *)
Lemma FlattenString_colliding_paths :
  only_maps_and_scalars (VMap colliding_example) = true ∧
  length (dot_entries colliding_example) = 2 ∧
  Flatten colliding_example "" DotStyle = Ok {["a.b" := VString "c"]} ∧
  (∀ Unmarshal Marshal nestedstr,
     Unmarshal nestedstr = Ok colliding_example →
     FlattenString Unmarshal Marshal nestedstr "" DotStyle =
       Marshal {["a.b" := VString "c"]}) ∧
  ¬ (map_to_list ({["a.b" := VString "c"]} : gmap string value)
       ≡ₚ dot_entries colliding_example).
Proof.
  assert (Flatten colliding_example "" DotStyle = Ok {["a.b" := VString "c"]})
    as Hf by (vm_compute; reflexivity).
  do 2 (split; [reflexivity|]). split; [exact Hf|]. split.
  - intros Unmarshal Marshal nestedstr Hu.
    by apply FlattenString_Marshal with colliding_example.
  - intros Hp. apply Permutation_length in Hp.
    rewrite map_to_list_singleton in Hp. discriminate.
Qed.

(** * Further properties of the traversals *)

(** ** Keys as encoded paths *)

Lemma string_app_nil_r (s : string) : s +:+ "" = s.
Proof.
  induction s as [|c s IH]; [done|].
  change (String c (s +:+ "") = String c s). by rewrite IH.
Qed.

Lemma string_app_assoc (s1 s2 s3 : string) :
  (s1 +:+ s2) +:+ s3 = s1 +:+ (s2 +:+ s3).
Proof.
  induction s1 as [|c s1 IH]; [done|].
  change (String c ((s1 +:+ s2) +:+ s3) = String c (s1 +:+ (s2 +:+ s3))).
  by rewrite IH.
Qed.

Lemma enkey_connective prefix subkey style :
  enkey false prefix subkey style = prefix +:+ connective style subkey.
Proof.
  unfold enkey, connective.
  repeat case_match; try reflexivity. by rewrite string_app_nil_r.
Qed.

Lemma map_flat_map {A B C : Type} (g : B → C) (f : A → list B) (l : list A) :
  map g (flat_map f l) = flat_map (fun a => map g (f a)) l.
Proof. induction l as [|a l IH]; simpl; [done|]. by rewrite map_app, IH. Qed.

Lemma map_flat_range {A B C : Type} (g : B → C) (f : nat → A → list B) i
    (l : list A) :
  map g (flat_range f i l) = flat_range (fun j a => map g (f j a)) i l.
Proof.
  revert i. induction l as [|a l IH]; intros i; simpl; [done|].
  by rewrite map_app, IH.
Qed.

Lemma flat_map_ext_Forall {A B : Type} (f g : A → list B) (l : list A) :
  Forall (fun a => f a = g a) l → flat_map f l = flat_map g l.
Proof. induction 1 as [|a l Ha _ IH]; simpl; [done|]. by rewrite Ha, IH. Qed.

Lemma flat_range_ext_Forall {A B : Type} (f g : nat → A → list B) (l : list A) :
  Forall (fun a => ∀ j, f j a = g j a) l →
  ∀ i, flat_range f i l = flat_range g i l.
Proof.
  induction 1 as [|a l Ha _ IH]; intros i; simpl; [done|].
  by rewrite Ha, IH.
Qed.

Lemma entries_below_paths leaf style (nested : value) :
  ∀ prefix,
    entries leaf style false prefix nested =
    map (fun pv : list string * value =>
           (prefix +:+ connectives style pv.1, pv.2)) (paths leaf nested).
Proof.
  induction nested as [v Hv|xs IH|kvs IH] using value_tree_ind; intros prefix.
  - by destruct v.
  - cbn -[enkey]. rewrite map_flat_range. apply flat_range_ext_Forall.
    eapply Forall_impl; [exact IH|]. intros v IHv j. cbn -[enkey].
    rewrite enkey_connective. destruct (leaf v); cbn -[enkey].
    + by rewrite string_app_nil_r.
    + rewrite IHv, map_map. apply map_ext. intros [p x]. simpl.
      by rewrite string_app_assoc.
  - cbn -[enkey]. rewrite map_flat_map. apply flat_map_ext_Forall.
    eapply Forall_impl; [exact IH|]. intros [k v] IHv. cbn -[enkey] in *.
    rewrite enkey_connective. destruct (leaf v); cbn -[enkey].
    + by rewrite string_app_nil_r.
    + rewrite IHv, map_map. apply map_ext. intros [p x]. simpl.
      by rewrite string_app_assoc.
Qed.

Lemma entries_top_paths leaf style prefix (nested : value) :
  entries leaf style true prefix nested =
  map (keyed style prefix) (paths leaf nested).
Proof.
  destruct nested; try reflexivity.
  - simpl. rewrite map_flat_range. apply flat_range_ext_Forall.
    apply Forall_forall. intros v _ j. unfold keyed. simpl.
    destruct (leaf v); simpl.
    + by rewrite string_app_nil_r.
    + by rewrite entries_below_paths, map_map.
  - simpl. rewrite map_flat_map. apply flat_map_ext_Forall.
    apply Forall_forall. intros [k v] _. unfold keyed. simpl.
    destruct (leaf v); simpl.
    + by rewrite string_app_nil_r.
    + by rewrite entries_below_paths, map_map.
Qed.

Lemma foldl_store_reverse (l : list (string * value)) :
  foldl store ∅ l = list_to_map (reverse l).
Proof.
  induction l as [|[k v] l IH] using rev_ind; [done|].
  by rewrite foldl_snoc, reverse_snoc, list_to_map_cons, <- IH.
Qed.

Lemma foldl_store_lookup_other (l : list (string * value))
    (fm : gmap string value) (k : string) :
  k ∉ l.*1 → foldl store fm l !! k = fm !! k.
Proof.
  revert fm. induction l as [|[k' v] l IH]; intros fm Hk; simpl; [done|].
  rewrite fmap_cons, not_elem_of_cons in Hk. destruct Hk as [Hne Hk].
  rewrite IH by done. unfold store. simpl. by rewrite lookup_insert_ne.
Qed.

Lemma path_key_keyed_fst style prefix (l : list (list string * value)) :
  (map (keyed style prefix) l).*1 = map (fun pv => path_key style prefix pv.1) l.
Proof. induction l as [|pv l IH]; [done|]. simpl. by rewrite <- IH. Qed.

(** X1.  The flat map of [Flatten] is the map obtained by storing each stop
    of the walk, in the order of the walk, under the key of its path: the
    prefix, the first segment as it is, and every further segment (a map
    key, or a slice index in decimal) with the connective of the style; a
    later stop overwrites an earlier one with the same key. *)
Theorem Flatten_path_keys :
  ∀ (m : list (string * value)) (prefix : string) (style : SeparatorStyle),
    Flatten m prefix style =
    Ok (list_to_map
          (reverse (map (keyed style prefix) (paths stored_whole (VMap m))))).
Proof.
  intros m prefix style.
  by rewrite Flatten_entries, entries_top_paths, foldl_store_reverse.
Qed.

(** X2.  For a Mapping or a Sequence, [FlattenAll] without sorting returns,
    in the order of the walk, one text per value that is neither a Mapping
    nor a Sequence: the key of its path, a dot, and the value as [%v]
    prints it. *)
Theorem FlattenAll_path_texts :
  ∀ (fmtFloat : Z → Z → string) (nested : value) (prefix : string)
    (style : SeparatorStyle),
    is_collection nested = true →
    FlattenAll fmtFloat nested prefix style false =
    Ok (map (fun pv : list string * value =>
               path_key style prefix pv.1 +:+ "." +:+ Sprint_v fmtFloat pv.2)
          (paths emitted nested)).
Proof.
  intros fmtFloat nested prefix style Hc.
  rewrite FlattenAll_collection by done. simpl.
  by rewrite entries_top_paths, map_map.
Qed.

Lemma FlattenAll_path_texts_witness :
  FlattenAll (fun _ _ => "") (VMap alist_example) "" RailsStyle false =
  Ok (map (fun pv : list string * value =>
             path_key RailsStyle "" pv.1 +:+ "." +:+
             Sprint_v (fun _ _ => "") pv.2)
        (paths emitted (VMap alist_example))).
Proof. apply FlattenAll_path_texts. reflexivity. Defined.

(** X3.  When two stops of the walk of [Flatten] have the same key, the
    later one wins: a stop holds its key in the flat map whenever no stop
    after it in the walk has the same key. *)
Theorem Flatten_last_write_wins :
  ∀ (m : list (string * value)) (prefix : string) (style : SeparatorStyle)
    (before after : list (list string * value)) (p : list string) (v : value),
    paths stored_whole (VMap m) = before ++ (p, v) :: after →
    (∀ q, q ∈ after → path_key style prefix q.1 ≠ path_key style prefix p) →
    ∃ flat, Flatten m prefix style = Ok flat ∧
            flat !! path_key style prefix p = Some v.
Proof.
  intros m prefix style before after p v Hpaths Hafter.
  eexists. split; [apply Flatten_entries|].
  rewrite entries_top_paths, Hpaths, map_app, foldl_app. simpl.
  rewrite foldl_store_lookup_other.
  - unfold store, keyed. simpl. apply lookup_insert_eq.
  - rewrite path_key_keyed_fst. intros Hin.
    apply list_elem_of_In, in_map_iff in Hin as (q & Hq & Hin).
    apply (Hafter q); [by apply list_elem_of_In | done].
Qed.

Lemma Flatten_last_write_wins_witness :
  ∃ flat, Flatten overwrite_example "" DotStyle = Ok flat ∧
          flat !! path_key DotStyle "" ["a.b"] = Some (VString "second").
Proof.
  apply (Flatten_last_write_wins overwrite_example "" DotStyle
           [(["a"; "b"], VString "first")] []).
  - reflexivity.
  - intros q Hq. by apply elem_of_nil in Hq.
Defined.

(** ** Size and content of the flat map *)

Lemma foldl_store_size (l : list (string * value)) (fm : gmap string value) :
  (size (foldl store fm l) ≤ size fm + length l)%nat.
Proof.
  revert fm. induction l as [|[k v] l IH]; intros fm; simpl; [lia|].
  specialize (IH (store fm (k, v))). unfold store in *. simpl in *.
  rewrite map_size_insert in IH. destruct (fm !! k); simpl in IH; lia.
Qed.

Lemma foldl_store_size_collision (l : list (string * value))
    (fm : gmap string value) (k : string) :
  is_Some (fm !! k) → k ∈ l.*1 →
  (size (foldl store fm l) < size fm + length l)%nat.
Proof.
  revert fm. induction l as [|[k' v'] l IH]; intros fm Hk Hin; simpl.
  - by apply elem_of_nil in Hin.
  - rewrite fmap_cons, elem_of_cons in Hin. simpl in Hin.
    destruct (decide (k = k')) as [->|Hne].
    + pose proof (foldl_store_size l (store fm (k', v'))) as Hle.
      unfold store in *. simpl in *.
      rewrite map_size_insert_Some in Hle by done. lia.
    + destruct Hin as [?|Hin]; [done|].
      assert (is_Some (store fm (k', v') !! k)) as Hk'
        by (unfold store; simpl; by rewrite lookup_insert_ne).
      specialize (IH _ Hk' Hin). unfold store in *. simpl in *.
      rewrite map_size_insert in IH. destruct (fm !! k'); simpl in IH; lia.
Qed.

Lemma foldl_store_size_NoDup (l : list (string * value))
    (fm : gmap string value) :
  (size (foldl store fm l) = size fm + length l)%nat → NoDup l.*1.
Proof.
  revert fm. induction l as [|[k v] l IH]; intros fm Hsize; simpl in *.
  - constructor.
  - pose proof (foldl_store_size l (store fm (k, v))) as Hle.
    assert (size (store fm (k, v)) ≤ S (size fm))%nat as Hins.
    { unfold store. simpl. rewrite map_size_insert.
      destruct (fm !! k); simpl; lia. }
    constructor.
    + intros Hin.
      assert (is_Some (store fm (k, v) !! k)) as Hk
        by (unfold store; simpl; rewrite lookup_insert_eq; eauto).
      pose proof (foldl_store_size_collision l _ k Hk Hin). lia.
    + apply (IH (store fm (k, v))). lia.
Qed.

(** X4.  The keys of the flat map of [Flatten] are exactly the keys of the
    paths of the walk; the flat map never has more entries than the walk has
    stops, and it has as many exactly when no two stops have the same
    key. *)
Theorem Flatten_keys_and_size :
  ∀ (m : list (string * value)) (prefix : string) (style : SeparatorStyle),
    ∃ flat, Flatten m prefix style = Ok flat ∧
      (∀ key, key ∈ dom flat ↔
              ∃ pv, pv ∈ paths stored_whole (VMap m) ∧
                    key = path_key style prefix pv.1) ∧
      (size flat ≤ length (paths stored_whole (VMap m)))%nat ∧
      (size flat = length (paths stored_whole (VMap m)) ↔
       NoDup (map (fun pv => path_key style prefix pv.1)
                (paths stored_whole (VMap m)))).
Proof.
  intros m prefix style. eexists. split; [apply Flatten_entries|].
  rewrite entries_top_paths.
  set (l := paths stored_whole (VMap m)). split; [|split].
  - intros key. rewrite foldl_store_dom, dom_empty, path_key_keyed_fst.
    rewrite list_elem_of_In, in_map_iff. split.
    + intros [Hin|(pv & <- & Hin)]; [by apply elem_of_empty in Hin|].
      exists pv. by rewrite list_elem_of_In.
    + intros (pv & Hin & ->). right. exists pv. by rewrite <- list_elem_of_In.
  - pose proof (foldl_store_size (map (keyed style prefix) l) ∅) as Hle.
    by rewrite map_size_empty, length_map in Hle.
  - rewrite <- path_key_keyed_fst. split.
    + intros Hsize. apply (foldl_store_size_NoDup _ ∅).
      by rewrite map_size_empty, length_map.
    + intros Hnd. rewrite foldl_store_list_to_map by done.
      by rewrite map_size_list_to_map, length_map.
Qed.

Lemma entries_leaf leaf style (nested : value) :
  ∀ top prefix e, e ∈ entries leaf style top prefix nested → leaf e.2 = true.
Proof.
  induction nested as [v Hv|xs IH|kvs IH] using value_tree_ind;
    intros top prefix e He.
  - destruct v; try discriminate Hv; by apply elem_of_nil in He.
  - cbn -[enkey] in He. revert He. generalize 0.
    induction xs as [|x xs IHxs]; intros i He; cbn -[enkey] in He.
    + by apply elem_of_nil in He.
    + apply Forall_cons in IH as [IHx IH].
      apply elem_of_app in He as [He|He]; [|by apply (IHxs IH (S i))].
      destruct (leaf x) eqn:Hl; [|by apply IHx in He].
      by apply list_elem_of_singleton in He as ->.
  - cbn -[enkey] in He.
    induction kvs as [|[k x] kvs IHkvs]; cbn -[enkey] in He.
    + by apply elem_of_nil in He.
    + apply Forall_cons in IH as [IHx IH].
      apply elem_of_app in He as [He|He]; [|by apply (IHkvs IH)].
      simpl in IHx. destruct (leaf x) eqn:Hl; [|by apply IHx in He].
      by apply list_elem_of_singleton in He as ->.
Qed.

Lemma foldl_store_lookup_elem (l : list (string * value)) (k : string)
    (v : value) :
  foldl store ∅ l !! k = Some v → (k, v) ∈ l.
Proof.
  rewrite foldl_store_reverse. intros H.
  apply elem_of_list_to_map_2 in H. by rewrite elem_of_reverse in H.
Qed.

(** X5.  Every value of the flat map of [Flatten] is one at which the walk
    stops: it is never a Mapping, and it is a Sequence only when each of its
    elements is of one of the types that [allPrimitives] lists. *)
Theorem Flatten_values_are_leaves :
  ∀ (m : list (string * value)) (prefix : string) (style : SeparatorStyle),
    ∃ flat, Flatten m prefix style = Ok flat ∧
      ∀ key v, flat !! key = Some v →
        (∀ kvs, v ≠ VMap kvs) ∧
        (∀ xs, v = VArr xs → Forall primitive_kind xs).
Proof.
  intros m prefix style. eexists. split; [apply Flatten_entries|].
  intros key v Hv. apply foldl_store_lookup_elem in Hv.
  apply entries_leaf in Hv. simpl in Hv. split.
  - intros kvs ->. discriminate.
  - intros xs ->. by apply allPrimitives_Forall.
Qed.

Lemma entries_whole style (m : list (string * value)) :
  Forall (fun kv => stored_whole kv.2 = true) m →
  entries stored_whole style true "" (VMap m) = m.
Proof.
  intros Hm. simpl. induction Hm as [|[k v] m Hv _ IH]; simpl; [done|].
  simpl in Hv. by rewrite Hv, IH.
Qed.

(** X6.  Flattening is idempotent: given back to [Flatten] with the empty
    prefix, in whatever order its entries are ranged over and in whatever
    style, the flat map of [Flatten] is returned unchanged. *)
Theorem Flatten_idempotent :
  ∀ (m : list (string * value)) (prefix : string)
    (style style' : SeparatorStyle),
    ∃ flat, Flatten m prefix style = Ok flat ∧
      ∀ again, again ≡ₚ map_to_list flat →
               Flatten again "" style' = Ok flat.
Proof.
  intros m prefix style style'. eexists. split; [apply Flatten_entries|].
  set (flat := foldl store ∅ _). intros again Hperm.
  assert (NoDup again.*1) as Hnd
    by (rewrite Hperm; apply NoDup_fst_map_to_list).
  rewrite Flatten_entries, entries_whole, foldl_store_list_to_map by
    first [ done
          | apply Forall_forall; intros [k v] Hin; simpl;
            rewrite Hperm in Hin; apply elem_of_map_to_list in Hin;
            apply foldl_store_lookup_elem in Hin;
            by apply entries_leaf in Hin ].
  f_equal. rewrite (list_to_map_proper again (map_to_list flat)) by done.
  apply list_to_map_to_list.
Qed.

(** ** The order of the visits in the map variant *)

Lemma reorder_isPrimitive x y : reorder x y → isPrimitive y = isPrimitive x.
Proof. by destruct 1. Qed.

Lemma reorder_allPrimitives xs ys :
  Forall2 reorder xs ys → allPrimitives ys = allPrimitives xs.
Proof.
  induction 1 as [|x y xs ys Hxy _ IH]; simpl; [done|].
  by rewrite (reorder_isPrimitive x y Hxy), IH.
Qed.

Lemma reorder_primitives_eq xs ys :
  Forall2 reorder xs ys → allPrimitives xs = true → ys = xs.
Proof.
  induction 1 as [|x y xs ys Hxy _ IH]; simpl; [done|].
  destruct (isPrimitive x) eqn:Hp; [|discriminate]. intros Hxs.
  rewrite (IH Hxs). f_equal. apply (reorder_leaf_inv x y Hxy).
  by destruct x.
Qed.

Lemma reorder_stored_whole v v' :
  reorder v v' → stored_whole v' = stored_whole v.
Proof.
  destruct 1 as [v Hv|xs ys Hxy|]; simpl; [done| |done].
  by apply reorder_allPrimitives.
Qed.

Lemma reorder_whole_inv v v' :
  reorder v v' → stored_whole v = true → v' = v.
Proof.
  destruct 1 as [v Hv|xs ys Hxy|]; simpl; [done| |discriminate].
  intros Hxs. f_equal. by apply reorder_primitives_eq.
Qed.

Lemma entries_reorder_whole style (v : value) :
  ∀ v', reorder v v' → ∀ top prefix,
    entries stored_whole style top prefix v
    ≡ₚ entries stored_whole style top prefix v'.
Proof.
  assert (∀ newKey x y, reorder x y →
            (∀ y, reorder x y → ∀ top prefix,
               entries stored_whole style top prefix x
               ≡ₚ entries stored_whole style top prefix y) →
            entries_at stored_whole style newKey x
            ≡ₚ entries_at stored_whole style newKey y) as Hat.
  { intros newKey x y Hr IHx. unfold entries_at.
    rewrite (reorder_stored_whole x y Hr).
    destruct (stored_whole x) eqn:Hw.
    - by rewrite (reorder_whole_inv x y Hr Hw).
    - by apply IHx. }
  induction v as [v Hv|xs IH|kvs IH] using value_tree_ind;
    intros v' Hr top prefix.
  - by rewrite (reorder_leaf_inv v v' Hr Hv).
  - inversion Hr as [? Hc|? ys Hxy|]; subst; [done|]. cbn -[enkey].
    clear Hr. generalize 0.
    induction Hxy as [|x y xs ys Hx _ IHxs]; intros i; [done|].
    apply Forall_cons in IH as [IHx IH]. cbn -[enkey].
    apply Permutation_app; [|by apply IHxs].
    by apply (Hat _ x y).
  - inversion Hr as [? Hc| |? mid kvs' Hmid Hperm]; subst; [done|].
    cbn -[enkey].
    etransitivity; [|by apply Permutation_flat_map].
    clear Hperm Hr. induction Hmid as [|[k x] [k' y] kvs mid [Hk Hx] _ IHkvs];
      [done|].
    apply Forall_cons in IH as [IHx IH]. cbn -[enkey] in *. subst k'.
    apply Permutation_app; [|by apply IHkvs].
    by apply (Hat _ x y).
Qed.

(** X7.  When no two stops of the walk have the same key, the flat map of
    [Flatten] does not depend on the order in which the maps of the tree, at
    any depth, are ranged over. *)
Theorem Flatten_order_free :
  ∀ (m m' : list (string * value)) (prefix : string) (style : SeparatorStyle),
    reorder (VMap m) (VMap m') →
    NoDup (map (fun pv : list string * value => path_key style prefix pv.1)
             (paths stored_whole (VMap m))) →
    Flatten m' prefix style = Flatten m prefix style.
Proof.
  intros m m' prefix style Hr Hnd.
  pose proof (entries_reorder_whole style _ _ Hr true prefix) as Hperm.
  rewrite <- path_key_keyed_fst, <- entries_top_paths in Hnd.
  assert (NoDup (entries stored_whole style true prefix (VMap m')).*1) as Hnd'
    by (by rewrite <- Hperm).
  rewrite !Flatten_entries, !foldl_store_list_to_map by done.
  f_equal. symmetry. by apply list_to_map_proper.
Qed.

Lemma Flatten_order_free_witness :
  Flatten [("e", VString "f"); ("a", VMap [("b", VString "c")])] "p:" DotStyle =
  Flatten nested_example "p:" DotStyle.
Proof.
  apply Flatten_order_free.
  - apply (reorder_map _ nested_example).
    + constructor; [split; [reflexivity|]|].
      * apply (reorder_map _ [("b", VString "c")]); [|reflexivity].
        constructor; [split; [reflexivity|by apply reorder_leaf]|constructor].
      * constructor; [split; [reflexivity|by apply reorder_leaf]|constructor].
    + apply perm_swap.
  - apply (bool_decide_unpack (NoDup _)). vm_compute. exact I.
Defined.

(** ** The prefix *)

Lemma path_key_prefix style prefix (segs : list string) :
  path_key style prefix segs = prefix +:+ path_key style "" segs.
Proof.
  destruct segs as [|first rest]; simpl.
  - by rewrite string_app_nil_r.
  - change ("" +:+ first) with first. by rewrite !string_app_assoc.
Qed.

Lemma kmap_foldl_store (f : string → string) `{!Inj (=) (=) f}
    (l : list (string * value)) (fm : gmap string value) :
  kmap f (foldl store fm l) =
  foldl store (kmap f fm) (map (fun kv : string * value => (f kv.1, kv.2)) l).
Proof.
  revert fm. induction l as [|[k v] l IH]; intros fm; simpl; [done|].
  rewrite IH. unfold store. simpl. by rewrite kmap_insert.
Qed.

Lemma string_compare_app (p a b : string) :
  String.compare (p +:+ a) (p +:+ b) = String.compare a b.
Proof.
  induction p as [|c p IH]; [done|].
  change (String.compare (String c (p +:+ a)) (String c (p +:+ b))
          = String.compare a b).
  simpl. unfold Ascii.compare. by rewrite N.compare_refl.
Qed.

Lemma sort_Strings_prefix (p : string) (l : list string) :
  sort_Strings (map (String.append p) l) =
  map (String.append p) (sort_Strings l).
Proof.
  apply (StronglySorted_unique str_le).
  - apply sort_Strings_sorted.
  - pose proof (sort_Strings_sorted l) as Hs.
    induction Hs as [|a r _ IH Hall]; simpl; constructor; [done|].
    apply Forall_forall. intros x Hx.
    apply list_elem_of_In, in_map_iff in Hx as (b & <- & Hb).
    rewrite Forall_forall in Hall. apply list_elem_of_In, Hall in Hb.
    unfold str_le, String.leb in *. by rewrite string_compare_app.
  - rewrite sort_Strings_perm. apply Permutation_map. symmetry.
    apply sort_Strings_perm.
Qed.

(** X8.  The prefix is put in front of every key and changes nothing else:
    the flat map of [Flatten] with a prefix is the flat map obtained with
    the empty prefix, every key of which has the prefix prepended. *)
Theorem Flatten_prefix :
  ∀ (m : list (string * value)) (prefix : string) (style : SeparatorStyle),
    ∃ flat0, Flatten m "" style = Ok flat0 ∧
             Flatten m prefix style = Ok (kmap (String.append prefix) flat0).
Proof.
  intros m prefix style. eexists. split; [apply Flatten_entries|].
  rewrite Flatten_entries, kmap_foldl_store, kmap_empty by apply _.
  do 2 f_equal. rewrite !entries_top_paths, map_map.
  apply map_ext. intros [p v]. unfold keyed. simpl.
  by rewrite (path_key_prefix style prefix).
Qed.

(** X9.  In the list variant too the prefix is put in front of every text
    and changes nothing else, sorted or not: sorting and prefixing
    commute. *)
Theorem FlattenAll_prefix :
  ∀ (fmtFloat : Z → Z → string) (nested : value) (prefix : string)
    (style : SeparatorStyle) (sorted : bool),
    is_collection nested = true →
    ∃ out0, FlattenAll fmtFloat nested "" style sorted = Ok out0 ∧
            FlattenAll fmtFloat nested prefix style sorted =
              Ok (map (String.append prefix) out0).
Proof.
  intros fmtFloat nested prefix style sorted Hc.
  rewrite !FlattenAll_collection by done. eexists. split; [reflexivity|].
  f_equal. simpl.
  assert (map (entry_text fmtFloat)
            (entries emitted style true prefix nested) =
          map (String.append prefix)
            (map (entry_text fmtFloat) (entries emitted style true "" nested)))
    as ->.
  { rewrite !entries_top_paths, !map_map. apply map_ext. intros [p v].
    unfold entry_text, keyed. simpl.
    by rewrite (path_key_prefix style prefix), string_app_assoc. }
  destruct sorted; [apply sort_Strings_prefix|done].
Qed.

Lemma FlattenAll_prefix_witness :
  ∃ out0,
    FlattenAll (fun _ _ => "") (VMap alist_example) "" SlashStyle true =
      Ok out0 ∧
    FlattenAll (fun _ _ => "") (VMap alist_example) "p:" SlashStyle true =
      Ok (map (String.append "p:") out0).
Proof. apply FlattenAll_prefix. reflexivity. Defined.

(** X10.  The list variant loses no stop of the walk: whatever the prefix,
    the style and the sorting, and even where keys coincide, the result of
    [FlattenAll] on a Mapping or a Sequence has one text per value of the
    tree that is neither a Mapping nor a Sequence. *)
Theorem FlattenAll_length :
  ∀ (fmtFloat : Z → Z → string) (nested : value) (prefix : string)
    (style : SeparatorStyle) (sorted : bool),
    is_collection nested = true →
    ∃ out, FlattenAll fmtFloat nested prefix style sorted = Ok out ∧
           length out = length (paths emitted nested).
Proof.
  intros fmtFloat nested prefix style sorted Hc.
  rewrite FlattenAll_collection by done. eexists. split; [reflexivity|].
  simpl. destruct sorted.
  - by rewrite sort_Strings_perm, entries_top_paths, !length_map.
  - by rewrite entries_top_paths, !length_map.
Qed.

Lemma FlattenAll_length_witness :
  ∃ out,
    FlattenAll (fun _ _ => "") (VMap colliding_example) "" DotStyle true =
      Ok out ∧
    length out = length (paths emitted (VMap colliding_example)).
Proof. apply FlattenAll_length. reflexivity. Defined.

(** ** Empty maps and slices *)

Lemma entries_VMap_app leaf style top prefix (l1 l2 : list (string * value)) :
  entries leaf style top prefix (VMap (l1 ++ l2)) =
  entries leaf style top prefix (VMap l1) ++
  entries leaf style top prefix (VMap l2).
Proof. cbn -[enkey]. apply flat_map_app. Qed.

Lemma entries_VMap_cons leaf style top prefix k v (l : list (string * value)) :
  entries leaf style top prefix (VMap ((k, v) :: l)) =
  entries_at leaf style (enkey top prefix k style) v ++
  entries leaf style top prefix (VMap l).
Proof. reflexivity. Qed.

(** X11.  In the map variant an entry whose value is a map without entries
    leaves no trace in the flat map, wherever it stands, whereas a slice
    without elements is stored, as it is, under its key. *)
Theorem Flatten_empty_containers :
  ∀ (m1 m2 : list (string * value)) (k prefix : string)
    (style : SeparatorStyle),
    Flatten (m1 ++ (k, VMap []) :: m2) prefix style =
      Flatten (m1 ++ m2) prefix style ∧
    ∃ flat1, Flatten m1 prefix style = Ok flat1 ∧
             Flatten (m1 ++ [(k, VArr [])]) prefix style =
               Ok (<[prefix +:+ k := VArr []]> flat1).
Proof.
  intros m1 m2 k prefix style. split.
  - rewrite !Flatten_entries, !entries_VMap_app, entries_VMap_cons.
    by unfold entries_at.
  - eexists. split; [apply Flatten_entries|].
    rewrite Flatten_entries, entries_VMap_app, foldl_app. reflexivity.
Qed.

(** X12.  In the list variant an entry whose value is a map without entries
    or a slice without elements leaves no trace in the result, wherever it
    stands. *)
Theorem FlattenAll_empty_containers :
  ∀ (fmtFloat : Z → Z → string) (m1 m2 : list (string * value))
    (k prefix : string) (style : SeparatorStyle) (sorted : bool),
    FlattenAll fmtFloat (VMap (m1 ++ (k, VMap []) :: m2)) prefix style sorted =
      FlattenAll fmtFloat (VMap (m1 ++ m2)) prefix style sorted ∧
    FlattenAll fmtFloat (VMap (m1 ++ (k, VArr []) :: m2)) prefix style sorted =
      FlattenAll fmtFloat (VMap (m1 ++ m2)) prefix style sorted.
Proof.
  intros fmtFloat m1 m2 k prefix style sorted.
  rewrite !FlattenAll_collection by done.
  rewrite !entries_VMap_app, !entries_VMap_cons. by unfold entries_at.
Qed.

(** ** A style that is none of the three *)

Lemma connectives_unknown style (segs : list string) :
  ¬ known_style style → connectives style segs = "".
Proof.
  unfold known_style. intros Hk.
  assert (∀ seg, connective style seg = "") as Hc.
  { intros seg. unfold connective.
    destruct (Z.eqb_spec style DotStyle); [tauto|].
    destruct (Z.eqb_spec style SlashStyle); [tauto|].
    destruct (Z.eqb_spec style RailsStyle); [tauto|done]. }
  induction segs as [|seg segs IH]; simpl; [done|]. by rewrite Hc, IH.
Qed.

Lemma size_list_to_set_le (l : list string) :
  (size (list_to_set l : gset string) ≤ length l)%nat.
Proof.
  induction l as [|x l IH].
  - rewrite list_to_set_nil, size_empty. simpl. lia.
  - rewrite list_to_set_cons, size_union_alt, size_singleton.
    assert (size (list_to_set l ∖ {[x]} : gset string)
            ≤ size (list_to_set l : gset string))%nat
      by (apply subseteq_size, subseteq_difference_l; reflexivity).
    simpl. lia.
Qed.

Lemma paths_VMap_head leaf (m : list (string * value)) pv :
  pv ∈ paths leaf (VMap m) →
  ∃ k rest, pv.1 = k :: rest ∧ k ∈ m.*1.
Proof.
  simpl. intros Hin. apply list_elem_of_In, in_flat_map in Hin.
  destruct Hin as ([k v] & Hkv & Hin). simpl in Hin.
  assert (k ∈ m.*1) as Hk.
  { apply list_elem_of_In in Hkv.
    by apply (list_elem_of_fmap_2 fst _ (k, v)). }
  destruct (leaf v).
  - destruct Hin as [<-|[]]. by exists k, [].
  - apply in_map_iff in Hin as ([p x] & <- & _). by exists k, p.
Qed.

(** X13.  With a style that is none of dot, slash and Rails, every stop
    below a top-level entry is stored under the key of that entry: each key
    of the flat map of [Flatten] is the prefix followed by a top-level key,
    so that the flat map has at most one entry per top-level entry. *)
Theorem Flatten_unknown_style_keys :
  ∀ (m : list (string * value)) (prefix : string) (style : SeparatorStyle),
    ¬ known_style style →
    ∃ flat, Flatten m prefix style = Ok flat ∧
      (∀ key, key ∈ dom flat → ∃ k, k ∈ m.*1 ∧ key = prefix +:+ k) ∧
      (size flat ≤ length m)%nat.
Proof.
  intros m prefix style Hk. eexists. split; [apply Flatten_entries|].
  rewrite entries_top_paths.
  assert (∀ key, key ∈ (map (keyed style prefix)
                            (paths stored_whole (VMap m))).*1 →
                 key ∈ map (String.append prefix) m.*1) as Hkeys.
  { intros key. rewrite path_key_keyed_fst. intros Hin.
    apply list_elem_of_In, in_map_iff in Hin as (pv & <- & Hin).
    apply list_elem_of_In, paths_VMap_head in Hin as (k & rest & -> & Hin).
    simpl. rewrite connectives_unknown, string_app_nil_r by done.
    apply list_elem_of_In, in_map. by apply list_elem_of_In. }
  split.
  - intros key Hdom. apply foldl_store_dom in Hdom as [Hdom|Hdom].
    + rewrite dom_empty in Hdom. by apply elem_of_empty in Hdom.
    + apply Hkeys, list_elem_of_In, in_map_iff in Hdom as (k & <- & Hin).
      exists k. by rewrite list_elem_of_In.
  - set (flat := foldl store ∅ _).
    assert (dom flat ⊆ list_to_set (map (String.append prefix) m.*1)) as Hsub.
    { intros key Hdom. apply elem_of_list_to_set.
      apply foldl_store_dom in Hdom as [Hdom|Hdom]; [|by apply Hkeys].
      rewrite dom_empty in Hdom. by apply elem_of_empty in Hdom. }
    apply subseteq_size in Hsub. rewrite size_dom in Hsub.
    etransitivity; [exact Hsub|].
    etransitivity; [apply size_list_to_set_le|].
    by rewrite length_map, length_fmap.
Qed.

Lemma Flatten_unknown_style_keys_witness :
  ∃ flat, Flatten alist_example "p:" 0%Z = Ok flat ∧
    (∀ key, key ∈ dom flat → ∃ k, k ∈ alist_example.*1 ∧ key = "p:" +:+ k) ∧
    (size flat ≤ length alist_example)%nat.
Proof.
  apply Flatten_unknown_style_keys.
  unfold known_style, DotStyle, SlashStyle, RailsStyle. lia.
Defined.

(** ** Sibling keys *)

Lemma string_app_inj_last (c : Ascii.ascii) (s1 s2 : string) :
  s1 +:+ String c "" = s2 +:+ String c "" → s1 = s2.
Proof.
  revert s2. induction s1 as [|a s1 IH]; intros [|b s2] H; [done| | |].
  - change (String c "" = String b (s2 +:+ String c "")) in H.
    injection H as _ H. by destruct s2.
  - change (String a (s1 +:+ String c "") = String c "") in H.
    injection H as _ H. by destruct s1.
  - change (String a (s1 +:+ String c "") = String b (s2 +:+ String c ""))
      in H.
    injection H as -> H. by rewrite (IH s2 H).
Qed.

(** X14.  At the top level, and below it in the dot, slash and Rails
    styles, the key encoder gives different keys to different child keys of
    one parent path: the entries of one map, and the elements of one slice,
    are never confused with one another. *)
Theorem enkey_subkey_inj :
  ∀ (top : bool) (prefix k1 k2 : string) (style : SeparatorStyle),
    top = true ∨ known_style style →
    k1 ≠ k2 →
    enkey top prefix k1 style ≠ enkey top prefix k2 style.
Proof.
  intros top prefix k1 k2 style Hts Hne H. apply Hne. clear Hne.
  destruct top.
  - simpl in H. by apply (inj (String.append prefix)) in H.
  - destruct Hts as [?|[->|[->| ->]]]; [done|..]; simpl in H;
      apply (inj (String.append prefix)) in H.
    + by apply (inj (String.append ".")) in H.
    + by apply (inj (String.append "/")) in H.
    + apply (inj (String.append "[")) in H.
      by apply string_app_inj_last in H.
Qed.

Lemma enkey_subkey_inj_witness :
  enkey false "a" "b" RailsStyle ≠ enkey false "a" "c" RailsStyle.
Proof.
  apply (enkey_subkey_inj false "a" "b" "c" RailsStyle).
  - right. right. right. reflexivity.
  - discriminate.
Defined.

(** ** The text variant and its collaborators *)

Section TextVariantErrors.

Variable Unmarshal : string → result (list (string * value)).
Variable Marshal : gmap string value → result string.

(** X15.  [FlattenString] fails only as [json.Unmarshal] or [json.Marshal]
    fails, with their error as it is: when the text does not decode, the
    decoding error is returned and nothing is encoded; when it decodes, the
    result is that of encoding the flat map, error or text, and the error
    of [Flatten] is never the one returned. *)
Theorem FlattenString_errors :
  ∀ (nestedstr prefix : string) (style : SeparatorStyle),
    FlattenString Unmarshal Marshal nestedstr prefix style =
    match Unmarshal nestedstr with
    | Err err => Err err
    | Ok nested =>
        Marshal
          (list_to_map
             (reverse (map (keyed style prefix)
                         (paths stored_whole (VMap nested)))))
    end.
Proof.
  intros nestedstr prefix style. unfold FlattenString.
  destruct (Unmarshal nestedstr) as [nested|err]; [|done].
  rewrite Flatten_entries, entries_top_paths, foldl_store_reverse.
  by destruct (Marshal _).
Qed.

End TextVariantErrors.

(** ** The two variants on trees without slices *)

Lemma paths_maps_and_scalars (v : value) :
  only_maps_and_scalars v = true → paths stored_whole v = paths emitted v.
Proof.
  induction v as [v Hv|xs _|kvs IH] using value_tree_ind; intros Hms.
  - by destruct v.
  - discriminate.
  - simpl in *. apply flat_map_ext_Forall.
    induction kvs as [|[k x] kvs IHkvs]; [constructor|].
    apply Forall_cons in IH as [IHx IH].
    simpl in Hms. apply andb_true_iff in Hms as [Hx Hkvs].
    constructor; [|by apply IHkvs]. simpl in *. unfold emitted.
    destruct (is_collection x) eqn:Hc; simpl.
    + rewrite (only_maps_and_scalars_collection x Hx Hc). by rewrite IHx.
    + by rewrite (only_maps_and_scalars_leaf x Hx Hc).
Qed.

(** X16.  On a Mapping that holds only Scalars and nested Mappings and
    whose stops have pairwise distinct keys, the two variants agree: the
    sorted result of [FlattenAll] is the sorted list of the texts
    [key + "." + value] of the entries of the flat map of [Flatten]. *)
Theorem FlattenAll_of_Flatten :
  ∀ (fmtFloat : Z → Z → string) (m : list (string * value)) (prefix : string)
    (style : SeparatorStyle),
    only_maps_and_scalars (VMap m) = true →
    NoDup (map (fun pv : list string * value => path_key style prefix pv.1)
             (paths stored_whole (VMap m))) →
    ∃ flat, Flatten m prefix style = Ok flat ∧
      FlattenAll fmtFloat (VMap m) prefix style true =
        Ok (sort_Strings
              (map (fun kv : string * value =>
                      kv.1 +:+ "." +:+ Sprint_v fmtFloat kv.2)
                 (map_to_list flat))).
Proof.
  intros fmtFloat m prefix style Hms Hnd.
  rewrite <- path_key_keyed_fst, <- entries_top_paths in Hnd.
  eexists. split; [apply Flatten_entries|].
  rewrite FlattenAll_collection by done. cbv zeta. f_equal.
  apply sort_Strings_order_free, (Permutation_map (entry_text fmtFloat)).
  rewrite foldl_store_list_to_map by done.
  rewrite map_to_list_to_map by done.
  by rewrite !entries_top_paths, (paths_maps_and_scalars _ Hms).
Qed.

Lemma FlattenAll_of_Flatten_witness :
  ∃ flat, Flatten nested_example "p:" SlashStyle = Ok flat ∧
    FlattenAll (fun _ _ => "") (VMap nested_example) "p:" SlashStyle true =
      Ok (sort_Strings
            (map (fun kv : string * value =>
                    kv.1 +:+ "." +:+ Sprint_v (fun _ _ => "") kv.2)
               (map_to_list flat))).
Proof.
  apply FlattenAll_of_Flatten.
  - reflexivity.
  - apply (bool_decide_unpack (NoDup _)). vm_compute. exact I.
Defined.

(** ** Dotted and slashed keys *)

Lemma connectives_concat style (sep : string) (first : string)
    (rest : list string) :
  (∀ seg, connective style seg = sep +:+ seg) →
  first +:+ connectives style rest = String.concat sep (first :: rest).
Proof.
  intros Hsep. revert first.
  induction rest as [|r rest IH]; intros first.
  - apply string_app_nil_r.
  - change (first +:+ (connective style r +:+ connectives style rest) =
            first +:+ (sep +:+ String.concat sep (r :: rest))).
    by rewrite Hsep, string_app_assoc, IH.
Qed.

Lemma path_key_concat style (sep prefix : string) (segs : list string) :
  (∀ seg, connective style seg = sep +:+ seg) →
  path_key style prefix segs = prefix +:+ String.concat sep segs.
Proof.
  intros Hsep. destruct segs as [|first rest].
  - simpl. by rewrite string_app_nil_r.
  - unfold path_key.
    by rewrite string_app_assoc, (connectives_concat style sep).
Qed.

(** X17.  In the dot style every key of [Flatten] is the prefix followed by
    the segments of the path (map keys, and slice indices in decimal)
    joined by dots, as in [a.b.1.c]; in the slash style they are joined by
    slashes. *)
Theorem Flatten_joined_keys :
  ∀ (m : list (string * value)) (prefix : string),
    Flatten m prefix DotStyle =
      Ok (list_to_map
            (reverse
               (map (fun pv : list string * value =>
                       (prefix +:+ String.concat "." pv.1, pv.2))
                  (paths stored_whole (VMap m))))) ∧
    Flatten m prefix SlashStyle =
      Ok (list_to_map
            (reverse
               (map (fun pv : list string * value =>
                       (prefix +:+ String.concat "/" pv.1, pv.2))
                  (paths stored_whole (VMap m))))).
Proof.
  intros m prefix.
  split; rewrite Flatten_entries, entries_top_paths, foldl_store_reverse;
    do 3 f_equal; apply map_ext; intros [p v]; unfold keyed; simpl; f_equal.
  - by apply path_key_concat.
  - by apply path_key_concat.
Qed.

(** ** Slices in the map variant, leaf by leaf *)

Lemma foldl_store_size_fresh (l : list (string * value))
    (fm : gmap string value) :
  NoDup l.*1 → (∀ key, key ∈ l.*1 → fm !! key = None) →
  size (foldl store fm l) = (size fm + length l)%nat.
Proof.
  revert fm. induction l as [|[k v] l IH]; intros fm Hnd Hfresh; simpl.
  - lia.
  - rewrite fmap_cons in Hnd. apply NoDup_cons in Hnd as [Hk Hnd].
    rewrite IH; [| done |].
    + unfold store. simpl. rewrite map_size_insert_None; [lia|].
      apply Hfresh. rewrite fmap_cons. apply list_elem_of_here.
    + intros key Hkey. unfold store. simpl.
      rewrite lookup_insert_ne by (intros ->; by apply Hk).
      apply Hfresh. rewrite fmap_cons. by apply list_elem_of_further.
Qed.

Lemma foldl_store_lookup_NoDup (l : list (string * value))
    (fm : gmap string value) (k : string) (v : value) :
  NoDup l.*1 → (k, v) ∈ l → foldl store fm l !! k = Some v.
Proof.
  revert fm. induction l as [|[k' v'] l IH]; intros fm Hnd Hin; simpl.
  - by apply elem_of_nil in Hin.
  - rewrite fmap_cons in Hnd. apply NoDup_cons in Hnd as [Hk Hnd].
    apply elem_of_cons in Hin as [[= -> ->]|Hin].
    + rewrite foldl_store_lookup_other by done.
      unfold store. simpl. apply lookup_insert_eq.
    + by apply IH.
Qed.

Lemma flatten_visit_leaves style fm newKey (v : value) :
  stored_whole v = false →
  flatten_visit style fm newKey v =
  foldl store fm (map (keyed_below style newKey) (paths stored_whole v)).
Proof.
  intros Hw.
  by rewrite flatten_visit_descend, flatten_entries, entries_below_paths.
Qed.

(** C2, amended.  In the map variant, a slice visited under a key is stored
    whole under that key, with no further recursion, exactly when each of
    its elements is a string, an int32, an int64, a float32, a float64 or a
    [json.Number]; every other slice (one that holds a nested map or slice,
    and also one that holds a boolean, a nil or an integer of another type)
    is flattened element by element into one key per reachable leaf: each
    leaf reached below the slice is stored, in the order of the walk, under
    the key of its path (the key of the slice, then the index and every
    further key or index with the connective of the style), and these are
    the only keys added to the flat map; when they are pairwise distinct and
    new to the flat map, it grows by exactly one entry per reachable leaf,
    each holding its leaf. *)
Theorem flatten_visit_slice :
  ∀ (style : SeparatorStyle) (fm : gmap string value) (newKey : string)
    (xs : list value),
    (allPrimitives xs = true ↔ Forall primitive_kind xs) ∧
    (Exists (fun x => is_collection x = true) xs → allPrimitives xs = false) ∧
    (allPrimitives xs = true →
     flatten_visit style fm newKey (VArr xs) = <[newKey := VArr xs]> fm) ∧
    (allPrimitives xs = false →
     flatten_visit style fm newKey (VArr xs) =
       foldl store fm
         (map (keyed_below style newKey) (paths stored_whole (VArr xs))) ∧
     (∀ key,
        key ∈ dom (flatten_visit style fm newKey (VArr xs)) ↔
        key ∈ dom fm ∨
        ∃ pv, pv ∈ paths stored_whole (VArr xs) ∧
              key = newKey +:+ connectives style pv.1) ∧
     (NoDup (map (fun pv : list string * value =>
                    newKey +:+ connectives style pv.1)
               (paths stored_whole (VArr xs))) →
      (∀ pv, pv ∈ paths stored_whole (VArr xs) →
             fm !! (newKey +:+ connectives style pv.1) = None) →
      size (flatten_visit style fm newKey (VArr xs)) =
        (size fm + length (paths stored_whole (VArr xs)))%nat ∧
      ∀ pv, pv ∈ paths stored_whole (VArr xs) →
            flatten_visit style fm newKey (VArr xs)
              !! (newKey +:+ connectives style pv.1) = Some pv.2)).
Proof.
  intros style fm newKey xs.
  split; [apply allPrimitives_Forall|].
  split; [apply allPrimitives_collection|].
  split; [intros Hp; by rewrite flatten_visit_whole|].
  intros Hp. rewrite (flatten_visit_leaves style fm newKey (VArr xs) Hp).
  set (l := paths stored_whole (VArr xs)).
  assert ((map (keyed_below style newKey) l).*1 =
          map (fun pv : list string * value =>
                 newKey +:+ connectives style pv.1) l) as Hkeys.
  { clear. induction l as [|pv l IH]; [done|]. simpl. by rewrite <- IH. }
  split; [done|]. split.
  - intros key. rewrite foldl_store_dom, Hkeys.
    rewrite list_elem_of_In, in_map_iff. split.
    + intros [?|(pv & <- & Hin)]; [by left|]. right.
      exists pv. by rewrite list_elem_of_In.
    + intros [?|(pv & Hin & ->)]; [by left|]. right.
      exists pv. by rewrite <- list_elem_of_In.
  - intros Hnd Hfresh. rewrite <- Hkeys in Hnd. split.
    + rewrite foldl_store_size_fresh, length_map; [done.. |].
      intros key Hkey. rewrite Hkeys in Hkey.
      apply list_elem_of_In, in_map_iff in Hkey as (pv & <- & Hin).
      apply Hfresh. by apply list_elem_of_In.
    + intros pv Hin. apply foldl_store_lookup_NoDup; [done|].
      apply list_elem_of_In. apply (in_map (keyed_below style newKey)).
      by apply list_elem_of_In.
Qed.
